(** * Virtual-memory layer of redream: [src/sys/memory_posix.c]

    A shallow embedding of the POSIX page operations and of the
    shared-memory registry, together with the properties the design
    document states about them.

    The C functions talk to the operating system through libc.  Each
    function is modelled as a small program over system-call events
    ([prog]); a program is run against an arbitrary kernel
    ([exec kernel]), so that the theorems about the functions hold
    whatever the operating system answers.  The registry's global
    variables ([s_initialized], [s_shmem], [s_free_shmem]) are passed
    explicitly as a [registry] record. *)

From Stdlib Require Import ZArith Ascii String Lia.
From stdpp Require Import base option list gmap strings.

Local Open Scope Z_scope.

(** ** Platform constants

    Values of the libc macros used by the file, as defined by the Linux
    x86-64 headers ([<sys/mman.h>], [<fcntl.h>], [<sys/stat.h>]). *)

Module Posix.
Definition PROT_NONE  : Z := 0.
Definition PROT_READ  : Z := 1.
Definition PROT_WRITE : Z := 2.
Definition PROT_EXEC  : Z := 4.

Definition MAP_SHARED    : Z := 1.
Definition MAP_PRIVATE   : Z := 2.
Definition MAP_FIXED     : Z := 16.
Definition MAP_ANON      : Z := 32.
Definition MAP_NORESERVE : Z := 16384.

(** [MAP_FAILED] is [(void * ) -1]: the all-ones 64-bit pointer. *)
Definition MAP_FAILED : Z := 2 ^ 64 - 1.

Definition O_RDONLY : Z := 0.
Definition O_RDWR   : Z := 2.
Definition O_CREAT  : Z := 64.
Definition O_EXCL   : Z := 128.

Definition S_IREAD  : Z := 256.
Definition S_IWRITE : Z := 128.

(** [flag] is set in the bit mask [flags]. *)
Definition has_flag (flag flags : Z) : bool := Z.land flags flag =? flag.
End Posix.
Import Posix.

(** Integer conversions performed implicitly by the C code. *)
Definition to_size_t (z : Z) : Z := z mod 2 ^ 64.
Definition to_off_t (z : Z) : Z := (z + 2 ^ 63) mod 2 ^ 64 - 2 ^ 63.

(** ** Paths handed to the kernel

    A [const char *] argument either designates a NUL-terminated string
    ([PStr s], [s] being the characters before the terminator) or
    memory that holds no NUL as far as it is modelled
    ([PUnterminated a]), which libc reads to its end and beyond. *)

Inductive path_arg : Type :=
| PStr (s : string)
| PUnterminated (a : string).

Global Instance path_arg_eq_dec : EqDecision path_arg.
Proof. solve_decision. Defined.

(** ** System calls and programs *)

Inductive syscall : Type :=
| sys_getpagesize
| sys_mprotect (addr len prot : Z)
| sys_mmap (addr len prot flags fd off : Z)
| sys_munmap (addr len : Z)
| sys_shm_unlink (name : path_arg)
| sys_shm_open (name : path_arg) (oflag mode : Z)
| sys_ftruncate (fd len : Z)
| sys_close (fd : Z).

(** A program either returns, performs a system call and continues with
    the value the kernel answers, stops the process on a failed [CHECK],
    or runs into undefined behaviour (dereferencing a pointer that is
    not an entry of [s_shmem]). *)

Inductive prog (A : Type) : Type :=
| Ret (a : A)
| Call (c : syscall) (k : Z → prog A)
| Abort
| Undef.
Arguments Ret {A} a.
Arguments Call {A} c k.
Arguments Abort {A}.
Arguments Undef {A}.

Fixpoint bind {A B : Type} (p : prog A) (f : A → prog B) : prog B :=
  match p with
  | Ret a => f a
  | Call c k => Call c (λ v, bind (k v) f)
  | Abort => Abort
  | Undef => Undef
  end.

Global Instance prog_ret : MRet prog := @Ret.
Global Instance prog_bind : MBind prog := λ A B f p, bind p f.

Definition call (c : syscall) : prog Z := Call c Ret.

(** What a run of a program ends in. *)
Inductive outcome (A : Type) : Type :=
| Returned (a : A)
| Aborted
| Undefined.
Arguments Returned {A} a.
Arguments Aborted {A}.
Arguments Undefined {A}.

(** One observed system call: the call and the kernel's answer. *)
Definition event : Type := syscall * Z.

Section Exec.
Context {OS : Type}.
Variable kernel : syscall → OS → Z * OS.

(** Runs [p] from the kernel state [w]; yields the system calls made,
    in order, the final kernel state and the outcome. *)
Fixpoint exec {A : Type} (p : prog A) (w : OS)
  : list event * OS * outcome A :=
  match p with
  | Ret a => ([], w, Returned a)
  | Call c k =>
      let '(v, w1) := kernel c w in
      let '(tr, w2, o) := exec (k v) w1 in
      ((c, v) :: tr, w2, o)
  | Abort => ([], w, Aborted)
  | Undef => ([], w, Undefined)
  end.

Definition trace_of {A} (p : prog A) (w : OS) : list event := (exec p w).1.1.
Definition world_of {A} (p : prog A) (w : OS) : OS := (exec p w).1.2.
Definition result_of {A} (p : prog A) (w : OS) : outcome A := (exec p w).2.
End Exec.

(** ** Access modes ([page_access_t] of [sys/memory.h]) *)

Inductive page_access_t : Type :=
| ACC_NONE
| ACC_READONLY
| ACC_READWRITE
| ACC_READWRITEEXEC.

Definition access_to_mode_flags (access : page_access_t) : Z :=
  match access with
  | ACC_READONLY => S_IREAD
  | ACC_READWRITE => Z.lor S_IREAD S_IWRITE
  | _ => 0
  end.

Definition access_to_open_flags (access : page_access_t) : Z :=
  match access with
  | ACC_READONLY => O_RDONLY
  | ACC_READWRITE => O_RDWR
  | _ => 0
  end.

Definition access_to_protect_flags (access : page_access_t) : Z :=
  match access with
  | ACC_READONLY => PROT_READ
  | ACC_READWRITE => Z.lor PROT_READ PROT_WRITE
  | ACC_READWRITEEXEC => Z.lor (Z.lor PROT_READ PROT_WRITE) PROT_EXEC
  | ACC_NONE => PROT_NONE
  end.

(** ** Page operations *)

Definition get_page_size : prog Z :=
  v ← call sys_getpagesize;
  mret (to_size_t v).

Definition get_allocation_granularity : prog Z :=
  get_page_size.

Definition protect_pages (ptr size : Z) (access : page_access_t) : prog bool :=
  let prot := access_to_protect_flags access in
  v ← call (sys_mprotect ptr size prot);
  mret (v =? 0).

(** The flags of the reservation request. *)
Definition reserve_flags : Z :=
  Z.lor (Z.lor MAP_ANON MAP_NORESERVE) MAP_PRIVATE.

Definition reserve_pages (ptr size : Z) : prog bool :=
  res ← call (sys_mmap ptr size PROT_NONE reserve_flags (-1) 0);
  if res =? MAP_FAILED then mret false
  else if negb (res =? ptr) then
    _ ← call (sys_munmap res size);
    mret false
  else mret true.

Definition release_pages (ptr size : Z) : prog bool :=
  v ← call (sys_munmap ptr size);
  mret (v =? 0).

(** ** Character arrays *)

Definition NUL : ascii := Ascii.zero.

(** [n] NUL characters. *)
Fixpoint pad (n : nat) : string :=
  match n with
  | O => EmptyString
  | S n' => String NUL (pad n')
  end.

(** [strncpy dst src n] of libc, for a destination array of exactly [n]
    characters: the array's new contents.  At most [n] characters of
    [src] are copied; when [src] ends before that the rest is filled
    with NULs, otherwise no terminator is written. *)
Fixpoint strncpy (src : string) (n : nat) {struct n} : string :=
  match n with
  | O => EmptyString
  | S n' =>
      match src with
      | String c src' =>
          if decide (c = NUL) then pad n else String c (strncpy src' n')
      | EmptyString => pad n
      end
  end.

(** The C string held by a character array: the characters before the
    first NUL, if the array has one. *)
Fixpoint c_str (a : string) : option string :=
  match a with
  | EmptyString => None
  | String c a' =>
      if decide (c = NUL) then Some EmptyString else String c <$> c_str a'
  end.

(** What a callee reads when it is handed a pointer to the memory [a]
    as a [const char *]: the C string in it, or, when [a] holds no NUL,
    all of [a] and then memory that is not modelled. *)
Definition path_of_array (a : string) : path_arg :=
  match c_str a with
  | Some s => PStr s
  | None => PUnterminated a
  end.

(** A well-formed C string has no NUL among its characters. *)
Fixpoint nul_free (s : string) : Prop :=
  match s with
  | EmptyString => True
  | String c s' => c ≠ NUL ∧ nul_free s'
  end.

(** ** The free list ([core/list.h]) *)

(** Modelled from the spec: [core/list.h] (the intrusive [list_t] with
    [list_add], [list_remove] and [list_first_entry]) is not part of the
    sources at hand.  The design document describes the free list as the
    collection of currently unused entries from which one entry is drawn.
    It is modelled as the sequence of the indices in [s_shmem] of the
    linked entries, first entry at the head: [list_add] links a node at
    the end, [list_remove] unlinks a node, [list_first_entry] yields the
    first entry, or a null pointer for the empty list. *)
Definition list_add (l : list nat) (n : nat) : list nat := l ++ [n].

Fixpoint list_remove (l : list nat) (n : nat) : list nat :=
  match l with
  | [] => []
  | x :: l' => if decide (x = n) then l' else x :: list_remove l' n
  end.

Definition list_first_entry (l : list nat) : option nat := head l.

(** ** Shared-memory registry *)

Definition MAX_SHMEM : nat := 128.

(** [shmem_t] without its list node, which the free list accounts for. *)
Record shmem_t : Type := Shmem {
  filename : string;   (* char filename[PATH_MAX] *)
  handle : Z           (* int handle *)
}.

(** The four bytes of an [int], least significant first. *)
Definition byte_of (z : Z) : ascii := ascii_of_N (Z.to_N (z mod 256)).

Definition int_bytes (z : Z) : string :=
  let u := z mod 2 ^ 32 in
  String (byte_of u)
    (String (byte_of (u / 2 ^ 8))
       (String (byte_of (u / 2 ^ 16))
          (String (byte_of (u / 2 ^ 24)) EmptyString))).

(** The memory of a [shmem_t] that follows a [filename] array of [n]
    characters, up to the list node (x86-64 layout): the [int handle]
    lies at the next multiple of 4 and the list node at the next
    multiple of 8 after it; the padding of an object in static storage
    is zero. *)
Definition after_filename (n : nat) (handle : Z) : string :=
  let gap1 := ((4 - n mod 4) mod 4)%nat in
  let gap2 := ((8 - (n + gap1 + 4) mod 8) mod 8)%nat in
  String.append (pad gap1) (String.append (int_bytes handle) (pad gap2)).

(** The memory a callee runs over when it is handed [shmem->filename]:
    the array and what follows it in the entry. *)
Definition filename_memory (e : shmem_t) : string :=
  String.append (filename e)
    (after_filename (String.length (filename e)) (handle e)).

(** The file's global variables. *)
Record registry : Type := Registry {
  s_initialized : bool;
  s_shmem : list shmem_t;
  s_free_shmem : list nat
}.

(** [shmem_handle_t]: a null pointer or a pointer to [s_shmem[i]]. *)
Inductive shmem_handle_t : Type :=
| NULL
| Entry (i : nat).

Global Instance shmem_handle_eq_dec : EqDecision shmem_handle_t.
Proof. solve_decision. Defined.

Definition with_free (r : registry) (l : list nat) : registry :=
  Registry (s_initialized r) (s_shmem r) l.

Definition with_entry (r : registry) (i : nat) (e : shmem_t) : registry :=
  Registry (s_initialized r) (<[i := e]> (s_shmem r)) (s_free_shmem r).

Definition init_shared_memory_entries (r : registry) : registry :=
  if s_initialized r then r
  else
    Registry true (s_shmem r)
      (foldl (λ free i, list_add free i) (s_free_shmem r) (seq 0 MAX_SHMEM)).

(** The entry a handle points to. *)
Definition entry_of (h : shmem_handle_t) (r : registry) : option (nat * shmem_t) :=
  match h with
  | NULL => None
  | Entry i => (λ e, (i, e)) <$> s_shmem r !! i
  end.

Section Registry.
(** [PATH_MAX] of [<limits.h>], the size of the [filename] array. *)
Variable PATH_MAX : nat.

(** The globals as the loader leaves them: all zero. *)
Definition registry_start : registry :=
  Registry false (replicate MAX_SHMEM (Shmem (pad PATH_MAX) 0)) [].

Definition create_flags (access : page_access_t) : Z :=
  Z.lor (Z.lor (access_to_open_flags access) O_CREAT) O_EXCL.

Definition create_shared_memory (filename : string) (size : Z)
    (access : page_access_t) (r : registry)
  : prog (shmem_handle_t * registry) :=
  let r := init_shared_memory_entries r in
  (* find unused shmem entry *)
  match list_first_entry (s_free_shmem r) with
  | None => Abort                                     (* CHECK_NOTNULL *)
  | Some i =>
      (* make sure the shared memory object doesn't already exist *)
      _ ← call (sys_shm_unlink (PStr filename));
      (* create the shared memory object and open a file handle to it *)
      let oflag := access_to_open_flags access in
      let mode := access_to_mode_flags access in
      handle ← call (sys_shm_open (PStr filename)
                        (Z.lor (Z.lor oflag O_CREAT) O_EXCL) mode);
      if handle =? -1 then mret (NULL, r)
      else
        (* resize it *)
        res ← call (sys_ftruncate handle (to_off_t size));
        if res =? -1 then
          _ ← call (sys_shm_unlink (PStr filename));
          mret (NULL, r)
        else
          (* update entry, remove from free list *)
          match s_shmem r !! i with
          | None => Undef
          | Some _ =>
              let r :=
                with_entry r i (Shmem (strncpy filename PATH_MAX) handle) in
              let r := with_free r (list_remove (s_free_shmem r) i) in
              mret (Entry i, r)
          end
  end.

Definition map_flags : Z := Z.lor MAP_SHARED MAP_FIXED.

Definition map_shared_memory (h : shmem_handle_t) (offset start size : Z)
    (access : page_access_t) (r : registry) : prog (bool * registry) :=
  let r := init_shared_memory_entries r in
  match entry_of h r with
  | None => Undef
  | Some (_, shmem) =>
      let prot := access_to_protect_flags access in
      ptr ← call (sys_mmap start size prot map_flags (handle shmem)
                     (to_off_t offset));
      mret (negb (ptr =? MAP_FAILED), r)
  end.

Definition unmap_shared_memory (h : shmem_handle_t) (start size : Z)
  : prog bool :=
  v ← call (sys_munmap start size);
  mret (v =? 0).

Definition destroy_shared_memory (h : shmem_handle_t) (r : registry)
  : prog (bool * registry) :=
  let r := init_shared_memory_entries r in
  match entry_of h r with
  | None => Undef
  | Some (i, shmem) =>
      res1 ← call (sys_close (handle shmem));
      res2 ← call (sys_shm_unlink (path_of_array (filename_memory shmem)));
      let r := with_free r (list_add (s_free_shmem r) i) in
      mret ((res1 =? 0) && (res2 =? 0), r)
  end.
End Registry.

(** ** Sequences of registry operations

    A client of the registry holds the handles it was given.  [step]
    performs one registry call for it; there is no next state when the
    process aborts, when the call runs into undefined behaviour, or when
    the client passes a handle it does not hold (which the interface
    forbids). *)

Inductive regop : Type :=
| op_create (name : string) (size : Z) (access : page_access_t)
| op_map (h : shmem_handle_t) (offset start size : Z) (access : page_access_t)
| op_unmap (h : shmem_handle_t) (start size : Z)
| op_destroy (h : shmem_handle_t).

Section Client.
Variable PATH_MAX : nat.
Context {OS : Type}.
Variable kernel : syscall → OS → Z * OS.

Record client : Type := Client {
  reg : registry;                 (* the registry's globals *)
  live : list shmem_handle_t;     (* handles created and not yet destroyed *)
  os : OS                         (* the operating system *)
}.

Definition client_start (w : OS) : client :=
  Client (registry_start PATH_MAX) [] w.

(** The handles held once [create_shared_memory] has returned [h]. *)
Definition hand_out (h : shmem_handle_t) (l : list shmem_handle_t)
  : list shmem_handle_t :=
  match h with
  | NULL => l
  | Entry _ => h :: l
  end.

(** The handles held once [h] has been destroyed. *)
Fixpoint give_back (h : shmem_handle_t) (l : list shmem_handle_t)
  : list shmem_handle_t :=
  match l with
  | [] => []
  | x :: l' => if decide (x = h) then l' else x :: give_back h l'
  end.

Definition step (op : regop) (s : client) : option client :=
  match op with
  | op_create name size access =>
      match exec kernel (create_shared_memory PATH_MAX name size access (reg s)) (os s) with
      | (_, w, Returned (h, r)) => Some (Client r (hand_out h (live s)) w)
      | _ => None
      end
  | op_map h offset start size access =>
      if decide (h ∈ live s) then
        match exec kernel (map_shared_memory h offset start size access (reg s)) (os s) with
        | (_, w, Returned (_, r)) => Some (Client r (live s) w)
        | _ => None
        end
      else None
  | op_unmap h start size =>
      if decide (h ∈ live s) then
        match exec kernel (unmap_shared_memory h start size) (os s) with
        | (_, w, Returned _) => Some (Client (reg s) (live s) w)
        | _ => None
        end
      else None
  | op_destroy h =>
      if decide (h ∈ live s) then
        match exec kernel (destroy_shared_memory h (reg s)) (os s) with
        | (_, w, Returned (_, r)) => Some (Client r (give_back h (live s)) w)
        | _ => None
        end
      else None
  end.

Fixpoint run_ops (ops : list regop) (s : client) : option client :=
  match ops with
  | [] => Some s
  | op :: ops' =>
      match step op s with
      | Some s' => run_ops ops' s'
      | None => None
      end
  end.

(** The pool is partitioned: every entry of [s_shmem] is either linked
    in the free list, once, or held by the client through one handle,
    never both. *)
Definition partitioned (s : client) : Prop :=
  NoDup (s_free_shmem (reg s)) ∧
  NoDup (live s) ∧
  ∀ i : nat,
    (i < MAX_SHMEM)%nat ↔
    ((i ∈ s_free_shmem (reg s) ∧ (Entry i ∉ live s)) ∨
     ((i ∉ s_free_shmem (reg s)) ∧ Entry i ∈ live s)).

(** The same, as bookkeeping: the pool is initialised, and the free
    entries together with the handles held are the [MAX_SHMEM] entries
    of [s_shmem], each counted once. *)
Definition accounted (s : client) : Prop :=
  s_initialized (reg s) = true ∧
  (Entry <$> s_free_shmem (reg s)) ++ live s ≡ₚ Entry <$> seq 0 MAX_SHMEM.

(** No registry call has been made yet. *)
Definition untouched (s : client) : Prop :=
  reg s = registry_start PATH_MAX ∧ live s = [].

(** The effect of one call on the free list and on the handles held. *)
Definition pool_effect (op : regop) (s s' : client) : Prop :=
  let r0 := init_shared_memory_entries (reg s) in
  match op with
  | op_create _ _ _ =>
      (s_free_shmem (reg s') = s_free_shmem r0 ∧ live s' = live s) ∨
      (∃ i : nat,
         s_free_shmem r0 = i :: s_free_shmem (reg s') ∧
         live s' = Entry i :: live s)
  | op_destroy h =>
      ∃ i : nat,
        h = Entry i ∧
        s_free_shmem (reg s') = s_free_shmem r0 ++ [i] ∧
        live s ≡ₚ h :: live s'
  | op_map _ _ _ _ _ =>
      s_free_shmem (reg s') = s_free_shmem r0 ∧ live s' = live s
  | op_unmap _ _ _ =>
      reg s' = reg s ∧ live s' = live s
  end.



End Client.

(** ** A reference kernel

    An executable model of the system calls the file uses, after Linux
    on x86-64 with the GNU C library, to run the functions on concrete
    inputs.

    Shared-memory objects live in a name space, keyed by the name
    without its leading slashes; a name is valid when that key is not
    empty, has no further slash and is at most 253 characters long.
    Descriptors refer to objects and keep them alive after the name is
    unlinked; each descriptor remembers the flags it was opened with,
    and [ftruncate] needs a descriptor open for writing.  Descriptors
    are numbered by a counter.

    Mappings are page-aligned ranges.  [mmap] rounds the length up to
    whole pages.  Without [MAP_FIXED] it takes the address as a hint:
    the hint is rounded down to a page boundary, raised to the lowest
    mappable address, and used when the range there is free; otherwise
    the range is placed above all mappings.  With [MAP_FIXED] the
    address must be page-aligned and the range replaces what was mapped
    there.  [munmap] needs a page-aligned address and removes the pages
    of the range only.  Protections and object sizes are not tracked.

    A path whose terminator lies beyond the modelled memory is longer
    than any valid name and is refused.

    The [faults] schedule lets a call fail for reasons outside of the
    model (no descriptors left, no space, no permission): each call
    takes the next entry of the schedule and fails without effect when
    it is [true]. *)

Definition PAGE_SIZE : Z := 4096.
Definition MMAP_MIN_ADDR : Z := 65536.
Definition TASK_SIZE : Z := 2 ^ 47 - 4096.

Definition page_floor (a : Z) : Z := a / PAGE_SIZE * PAGE_SIZE.
Definition page_align (a : Z) : Z := (a + PAGE_SIZE - 1) / PAGE_SIZE * PAGE_SIZE.
Definition page_aligned (a : Z) : bool := a mod PAGE_SIZE =? 0.

(** The name of an object without its leading slashes. *)
Fixpoint shm_key (s : string) : string :=
  match s with
  | EmptyString => EmptyString
  | String c s' => if decide (c = "/"%char) then shm_key s' else s
  end.

Fixpoint has_slash (s : string) : bool :=
  match s with
  | EmptyString => false
  | String c s' => bool_decide (c = "/"%char) || has_slash s'
  end.

Definition valid_shm_name (s : string) : bool :=
  negb (bool_decide (shm_key s = EmptyString)) &&
  bool_decide (String.length (shm_key s) ≤ 253)%nat &&
  negb (has_slash (shm_key s)).

Record os_state : Type := OsState {
  shm_names : gmap string nat;   (* key → object *)
  object_modes : gmap nat Z;     (* object → permission bits *)
  fd_table : gmap Z nat;         (* open descriptor → object *)
  fd_flags : gmap Z Z;           (* open descriptor → open flags *)
  next_object : nat;
  next_fd : Z;
  mappings : list (Z * Z);       (* start, length *)
  faults : list bool
}.

Definition os_boot : os_state := OsState ∅ ∅ ∅ ∅ 0 3 [] [].

Definition with_faults (w : os_state) (fs : list bool) : os_state :=
  OsState (shm_names w) (object_modes w) (fd_table w) (fd_flags w)
    (next_object w) (next_fd w) (mappings w) fs.

Definition with_names (w : os_state) (ns : gmap string nat) : os_state :=
  OsState ns (object_modes w) (fd_table w) (fd_flags w)
    (next_object w) (next_fd w) (mappings w) (faults w).

Definition with_fds (w : os_state) (fds : gmap Z nat) (fls : gmap Z Z)
  : os_state :=
  OsState (shm_names w) (object_modes w) fds fls
    (next_object w) (next_fd w) (mappings w) (faults w).

Definition with_mappings (w : os_state) (ms : list (Z * Z)) : os_state :=
  OsState (shm_names w) (object_modes w) (fd_table w) (fd_flags w)
    (next_object w) (next_fd w) ms (faults w).

Definition overlaps (a l : Z) (m : Z * Z) : bool :=
  (a <? m.1 + m.2) && (m.1 <? a + l).

Definition range_free (a l : Z) (ms : list (Z * Z)) : bool :=
  forallb (λ m, negb (overlaps a l m)) ms.

(** What is left of the mapping [m] once the range is unmapped. *)
Definition carve (a l : Z) (m : Z * Z) : list (Z * Z) :=
  if overlaps a l m then
    (if m.1 <? a then [(m.1, a - m.1)] else []) ++
    (if a + l <? m.1 + m.2 then [(a + l, m.1 + m.2 - (a + l))] else [])
  else [m].

Definition unmap_range (a l : Z) (ms : list (Z * Z)) : list (Z * Z) :=
  concat (map (carve a l) ms).

(** Every page of the range lies in some mapping. *)
Definition covered (a l : Z) (ms : list (Z * Z)) : bool :=
  forallb
    (λ k, existsb (λ m, (m.1 <=? a + PAGE_SIZE * k) &&
                         (a + PAGE_SIZE * k <? m.1 + m.2)) ms)
    (seqZ 0 (l / PAGE_SIZE)).

(** The address the kernel tries first for a hint. *)
Definition hint_address (addr : Z) : Z :=
  let h := page_floor addr in
  if h =? 0 then 0 else if h <? MMAP_MIN_ADDR then MMAP_MIN_ADDR else h.

(** A page-aligned address above every mapping, where the kernel places
    a request that cannot be served at its hint. *)
Definition above_all (ms : list (Z * Z)) : Z :=
  page_align (foldr (λ m acc, Z.max (m.1 + m.2) acc) MMAP_MIN_ADDR ms).

(** The range of [size] bytes can be mapped at exactly [ptr]. *)
Definition can_reserve (ptr size : Z) (ms : list (Z * Z)) : bool :=
  (0 <? size) && page_aligned ptr && (MMAP_MIN_ADDR <=? ptr) &&
  (ptr + page_align size <=? TASK_SIZE) &&
  range_free ptr (page_align size) ms.

(** The descriptor may back a mapping with this protection. *)
Definition fd_allows_mapping (w : os_state) (fd prot : Z) (shared : bool)
  : bool :=
  match fd_table w !! fd, fd_flags w !! fd with
  | Some _, Some fl =>
      negb (Z.land fl 3 =? 1) &&
      (negb (shared && has_flag PROT_WRITE prot) || (Z.land fl 3 =? O_RDWR))
  | _, _ => false
  end.

Definition failure_value (c : syscall) : Z :=
  match c with
  | sys_mmap _ _ _ _ _ _ => MAP_FAILED
  | _ => -1
  end.

(** Opens a descriptor with flags [oflag] on object [o]. *)
Definition open_fd (w : os_state) (ns : gmap string nat) (ms : gmap nat Z)
    (o next : nat) (oflag : Z) : Z * os_state :=
  (next_fd w,
   OsState ns ms (<[next_fd w := o]> (fd_table w))
     (<[next_fd w := oflag]> (fd_flags w)) next (next_fd w + 1)
     (mappings w) (faults w)).

(** The permission bits [mode] let their owner open with [oflag]. *)
Definition mode_allows (mode oflag : Z) : bool :=
  (bool_decide (Z.land oflag 3 = 1) || has_flag S_IREAD mode) &&
  (bool_decide (Z.land oflag 3 = O_RDONLY) || has_flag S_IWRITE mode).

Definition serve (c : syscall) (w : os_state) : Z * os_state :=
  match c with
  | sys_getpagesize => (PAGE_SIZE, w)
  | sys_mprotect addr len _ =>
      if negb (page_aligned addr) then (-1, w)
      else if page_align len <=? 0 then (0, w)
      else if covered addr (page_align len) (mappings w) then (0, w)
      else (-1, w)
  | sys_mmap addr len prot flags fd off =>
      let len' := page_align len in
      let shared := Z.land flags 3 =? MAP_SHARED in
      if (len <=? 0) || negb (page_aligned off) || (TASK_SIZE <? len') ||
         negb (shared || (Z.land flags 3 =? MAP_PRIVATE))
      then (MAP_FAILED, w)
      else if negb (has_flag MAP_ANON flags) &&
              negb (fd_allows_mapping w fd prot shared)
      then (MAP_FAILED, w)
      else if has_flag MAP_FIXED flags then
        if page_aligned addr && (MMAP_MIN_ADDR <=? addr) &&
           (addr + len' <=? TASK_SIZE)
        then (addr, with_mappings w
                      ((addr, len') :: unmap_range addr len' (mappings w)))
        else (MAP_FAILED, w)
      else
        let hint := hint_address addr in
        if negb (hint =? 0) && (hint + len' <=? TASK_SIZE) &&
           range_free hint len' (mappings w)
        then (hint, with_mappings w ((hint, len') :: mappings w))
        else
          let a := above_all (mappings w) in
          if a + len' <=? TASK_SIZE
          then (a, with_mappings w ((a, len') :: mappings w))
          else (MAP_FAILED, w)
  | sys_munmap addr len =>
      if negb (page_aligned addr) || (len <=? 0) ||
         (TASK_SIZE <? addr + page_align len)
      then (-1, w)
      else (0, with_mappings w
                 (unmap_range addr (page_align len) (mappings w)))
  | sys_shm_unlink (PStr s) =>
      if valid_shm_name s then
        match shm_names w !! shm_key s with
        | Some _ => (0, with_names w (delete (shm_key s) (shm_names w)))
        | None => (-1, w)
        end
      else (-1, w)
  | sys_shm_unlink (PUnterminated _) => (-1, w)
  | sys_shm_open (PStr s) oflag mode =>
      if valid_shm_name s && negb (Z.land oflag 3 =? 3) then
        match shm_names w !! shm_key s with
        | Some o =>
            if has_flag O_CREAT oflag && has_flag O_EXCL oflag then (-1, w)
            else if mode_allows (default 0 (object_modes w !! o)) oflag
            then open_fd w (shm_names w) (object_modes w) o (next_object w)
                   oflag
            else (-1, w)
        | None =>
            if has_flag O_CREAT oflag then
              open_fd w (<[shm_key s := next_object w]> (shm_names w))
                (<[next_object w := mode]> (object_modes w))
                (next_object w) (S (next_object w)) oflag
            else (-1, w)
        end
      else (-1, w)
  | sys_shm_open (PUnterminated _) _ _ => (-1, w)
  | sys_ftruncate fd len =>
      match fd_table w !! fd, fd_flags w !! fd with
      | Some _, Some fl =>
          if (Z.land fl 3 =? O_RDONLY) || (len <? 0) then (-1, w) else (0, w)
      | _, _ => (-1, w)
      end
  | sys_close fd =>
      match fd_table w !! fd with
      | Some _ =>
          (0, with_fds w (delete fd (fd_table w)) (delete fd (fd_flags w)))
      | None => (-1, w)
      end
  end.

Definition posix_kernel (c : syscall) (w : os_state) : Z * os_state :=
  match c, faults w with
  | sys_getpagesize, _ => serve c w            (* cannot fail *)
  | _, true :: fs => (failure_value c, with_faults w fs)
  | _, false :: fs => serve c (with_faults w fs)
  | _, [] => serve c w
  end.

(** ** Sample runs on the reference kernel

    An 8-character [filename] array keeps the samples small. *)

(** [create_shared_memory("x", 4096, ACC_READWRITE)] as the first call
    of a process. *)
Definition sample_create : list event * os_state * outcome (shmem_handle_t * registry) :=
  exec posix_kernel
    (create_shared_memory 8 "x" 4096 ACC_READWRITE (registry_start 8)) os_boot.

(** The registry and the kernel after that call. *)
Definition sample_registry : registry :=
  match sample_create.2 with
  | Returned (_, r) => r
  | _ => registry_start 8
  end.

Definition sample_os : os_state := sample_create.1.2.

(** A registry whose entries are all handed out. *)
Definition exhausted_registry : registry :=
  Registry true (replicate MAX_SHMEM (Shmem (strncpy "x" 8) 3)) [].

(** A name of five characters, the fifth being the byte 3, created with
    a [filename] array of four characters as the first call of a
    process, where the new descriptor is 3. *)
Definition sample_long_name : string :=
  String "a" (String "b" (String "c" (String "d"
    (String (ascii_of_N 3) EmptyString)))).

Definition sample_long_create : list event * os_state * outcome (shmem_handle_t * registry) :=
  exec posix_kernel
    (create_shared_memory 4 sample_long_name 4096 ACC_READWRITE
       (registry_start 4)) os_boot.

Definition sample_long_registry : registry :=
  match sample_long_create.2 with
  | Returned (_, r) => r
  | _ => registry_start 4
  end.

(** * Properties *)

(** ** Running programs *)

Lemma exec_call {OS A} (kernel : syscall → OS → Z * OS) c (k : Z → prog A) w :
  exec kernel (Call c k) w =
    let '(tr, w2, o) := exec kernel (k (kernel c w).1) (kernel c w).2 in
    ((c, (kernel c w).1) :: tr, w2, o).
Proof. cbn. by destruct (kernel c w). Qed.

Lemma exec_ret {OS A} (kernel : syscall → OS → Z * OS) (a : A) w :
  exec kernel (Ret a) w = ([], w, Returned a).
Proof. done. Qed.

(** Unfolds one run down to the kernel's answers. *)
Ltac run_prog :=
  repeat (cbn [mbind mret prog_bind prog_ret bind call];
          first [rewrite exec_call | rewrite exec_ret]).

(** Case analysis on the first comparison with -1 in the goal. *)
Ltac case_eqb H :=
  match goal with
  | |- context [?x =? -1] => destruct (Z.eqb_spec x (-1)) as [H|H]
  end.

(** ** Page operations *)

Section PageOps.
Context {OS : Type}.
Variable kernel : syscall → OS → Z * OS.

Lemma exec_reserve_pages (ptr size : Z) (w : OS) :
  let request := sys_mmap ptr size PROT_NONE reserve_flags (-1) 0 in
  let res := (kernel request w).1 in
  let w1 := (kernel request w).2 in
  exec kernel (reserve_pages ptr size) w =
    if res =? MAP_FAILED then ([(request, res)], w1, Returned false)
    else if res =? ptr then ([(request, res)], w1, Returned true)
    else ([(request, res);
           (sys_munmap res size, (kernel (sys_munmap res size) w1).1)],
          (kernel (sys_munmap res size) w1).2, Returned false).
Proof.
  intros request res w1. unfold reserve_pages. run_prog.
  fold request res w1.
  destruct (res =? MAP_FAILED); [done|].
  destruct (res =? ptr); cbn [negb]; [done|].
  by run_prog.
Qed.

(** C1. [reserve_pages] asks for an anonymous mapping at [ptr] without
    [MAP_FIXED].  It succeeds exactly when the kernel answers the
    requested address; when the kernel maps the range elsewhere the
    stray mapping is unmapped and the call fails; when [mmap] itself
    fails the call fails without any further system call. *)
Theorem reserve_pages_detects_collisions (ptr size : Z) (w : OS) :
  let request := sys_mmap ptr size PROT_NONE reserve_flags (-1) 0 in
  let res := (kernel request w).1 in
  let w1 := (kernel request w).2 in
  has_flag MAP_ANON reserve_flags = true ∧
  has_flag MAP_FIXED reserve_flags = false ∧
  head (trace_of kernel (reserve_pages ptr size) w) = Some (request, res) ∧
  (result_of kernel (reserve_pages ptr size) w = Returned true ↔
     res ≠ MAP_FAILED ∧ res = ptr) ∧
  (res ≠ MAP_FAILED → res = ptr →
     exec kernel (reserve_pages ptr size) w =
       ([(request, res)], w1, Returned true)) ∧
  (res ≠ MAP_FAILED → res ≠ ptr →
     exec kernel (reserve_pages ptr size) w =
       ([(request, res);
         (sys_munmap res size, (kernel (sys_munmap res size) w1).1)],
        (kernel (sys_munmap res size) w1).2, Returned false)) ∧
  (res = MAP_FAILED →
     exec kernel (reserve_pages ptr size) w =
       ([(request, res)], w1, Returned false)).
Proof.
  intros request res w1.
  pose proof (exec_reserve_pages ptr size w) as E.
  cbv zeta in E. fold request res w1 in E.
  unfold trace_of, result_of. rewrite E. clear E.
  split; [reflexivity|]. split; [reflexivity|].
  destruct (Z.eqb_spec res MAP_FAILED) as [Hf|Hf];
    [|destruct (Z.eqb_spec res ptr) as [Hp|Hp]]; cbn;
    (split; [done|]); (split; [split; [intros [=] || tauto | tauto || done]|]);
    repeat split; intros; (done || congruence || tauto).
Qed.

(** C8. [get_allocation_granularity] returns what [get_page_size]
    returns, on every call: the page size the system reports.  On a
    system whose page size is the positive constant [pagesz], both
    return [pagesz] on every call. *)
Theorem allocation_granularity_is_page_size :
  (∀ w : OS,
     exec kernel get_allocation_granularity w = exec kernel get_page_size w ∧
     result_of kernel get_page_size w
       = Returned (to_size_t (kernel sys_getpagesize w).1)) ∧
  ∀ pagesz : Z,
    0 < pagesz < 2 ^ 31 →
    (∀ w : OS, (kernel sys_getpagesize w).1 = pagesz) →
    ∀ w : OS,
      result_of kernel get_page_size w = Returned pagesz ∧
      result_of kernel get_allocation_granularity w = Returned pagesz ∧
      0 < pagesz ∧
      ∀ w' : OS,
        result_of kernel get_page_size w' = result_of kernel get_page_size w.
Proof.
  assert (Hps : ∀ w, result_of kernel get_page_size w
                     = Returned (to_size_t (kernel sys_getpagesize w).1)).
  { intros w. unfold result_of, get_page_size. by run_prog. }
  split; [by intros w|].
  intros pagesz Hpositive Hconstant.
  assert (Hconst : ∀ w, result_of kernel get_page_size w = Returned pagesz).
  { intros w. rewrite Hps, Hconstant. unfold to_size_t.
    rewrite Z.mod_small; [done | lia]. }
  intros w. repeat split; [apply Hconst | apply Hconst | lia |].
  intros w'. by rewrite !Hconst.
Qed.

(** C7. [unmap_shared_memory] is [release_pages] applied to the address
    and the size: the handle plays no part, and both make the same
    system call and return the same result. *)
Theorem unmap_shared_memory_is_release_pages
    (h : shmem_handle_t) (start size : Z) :
  unmap_shared_memory h start size = release_pages start size ∧
  (∀ h' : shmem_handle_t,
     unmap_shared_memory h' start size = unmap_shared_memory h start size) ∧
  ∀ w : OS,
    exec kernel (unmap_shared_memory h start size) w
      = exec kernel (release_pages start size) w ∧
    exec kernel (release_pages start size) w =
      ([(sys_munmap start size, (kernel (sys_munmap start size) w).1)],
       (kernel (sys_munmap start size) w).2,
       Returned ((kernel (sys_munmap start size) w).1 =? 0)).
Proof.
  repeat split. unfold release_pages. by run_prog.
Qed.
End PageOps.

(** ** The free list *)

Lemma foldl_list_add (l xs : list nat) :
  foldl (λ free i, list_add free i) l xs = l ++ xs.
Proof.
  revert l. induction xs as [|x xs IH]; intros l; cbn.
  - by rewrite app_nil_r.
  - rewrite IH. unfold list_add. by rewrite <- app_assoc.
Qed.

Lemma init_initialized (r : registry) :
  s_initialized r = true → init_shared_memory_entries r = r.
Proof. unfold init_shared_memory_entries. by intros ->. Qed.

Lemma init_uninitialized (r : registry) :
  s_initialized r = false →
  init_shared_memory_entries r =
    Registry true (s_shmem r) (s_free_shmem r ++ seq 0 MAX_SHMEM).
Proof.
  unfold init_shared_memory_entries. intros ->. by rewrite foldl_list_add.
Qed.

Lemma init_sets_flag (r : registry) :
  s_initialized (init_shared_memory_entries r) = true.
Proof.
  unfold init_shared_memory_entries.
  by destruct (s_initialized r) eqn:E.
Qed.

Lemma init_idempotent (r : registry) :
  init_shared_memory_entries (init_shared_memory_entries r)
    = init_shared_memory_entries r.
Proof. apply init_initialized, init_sets_flag. Qed.

Lemma init_keeps_entries (r : registry) :
  s_shmem (init_shared_memory_entries r) = s_shmem r.
Proof.
  unfold init_shared_memory_entries. by destruct (s_initialized r).
Qed.

Lemma list_remove_head (l : list nat) (i : nat) :
  list_first_entry l = Some i → l = i :: list_remove l i.
Proof.
  destruct l as [|x l]; [done|]. cbn. intros [= ->].
  by rewrite decide_True.
Qed.

(** ** [create_shared_memory], step by step *)

Section Create.
Variable PATH_MAX : nat.
Context {OS : Type}.
Variable kernel : syscall → OS → Z * OS.
Variables (name : string) (size : Z) (access : page_access_t).
Variables (r : registry) (w : OS).

(** The calls the function may make and the kernel's answers. *)
Let r0 := init_shared_memory_entries r.
Let unlink := sys_shm_unlink (PStr name).
Let open := sys_shm_open (PStr name) (create_flags access)
              (access_to_mode_flags access).
Let a1 := kernel unlink w.
Let a2 := kernel open a1.2.
Let truncate := sys_ftruncate a2.1 (to_off_t size).
Let a3 := kernel truncate a2.2.
Let a4 := kernel unlink a3.2.

Lemma exec_create_exhausted :
  list_first_entry (s_free_shmem r0) = None →
  exec kernel (create_shared_memory PATH_MAX name size access r) w
    = ([], w, Aborted).
Proof.
  intros H. unfold create_shared_memory. fold r0. by rewrite H.
Qed.

Lemma exec_create (i : nat) :
  list_first_entry (s_free_shmem r0) = Some i →
  exec kernel (create_shared_memory PATH_MAX name size access r) w =
    if a2.1 =? -1 then
      ([(unlink, a1.1); (open, a2.1)], a2.2, Returned (NULL, r0))
    else if a3.1 =? -1 then
      ([(unlink, a1.1); (open, a2.1); (truncate, a3.1); (unlink, a4.1)],
       a4.2, Returned (NULL, r0))
    else
      ([(unlink, a1.1); (open, a2.1); (truncate, a3.1)], a3.2,
       match s_shmem r0 !! i with
       | None => Undefined
       | Some _ =>
           Returned
             (Entry i,
              Registry true
                (<[i := Shmem (strncpy name PATH_MAX) a2.1]> (s_shmem r0))
                (list_remove (s_free_shmem r0) i))
       end).
Proof.
  intros H. unfold create_shared_memory. fold r0. rewrite H.
  run_prog. fold unlink a1. change (Z.lor (Z.lor _ O_CREAT) O_EXCL)
    with (create_flags access). fold open a2.
  destruct (a2.1 =? -1); [done|].
  run_prog. fold truncate a3.
  destruct (a3.1 =? -1).
  - run_prog. by fold a4.
  - destruct (s_shmem r0 !! i); [|done].
    unfold with_free, with_entry; cbn.
    fold r0. by rewrite (init_sets_flag r : s_initialized r0 = true).
Qed.

(** C2. With the pool exhausted (initialised, free list empty)
    [create_shared_memory] stops the process on its [CHECK_NOTNULL],
    before any system call is made: it returns nothing, neither a null
    handle nor any other value. *)
Theorem create_aborts_when_pool_exhausted :
  s_initialized r = true →
  s_free_shmem r = [] →
  exec kernel (create_shared_memory PATH_MAX name size access r) w
    = ([], w, Aborted) ∧
  ∀ v : shmem_handle_t * registry,
    result_of kernel (create_shared_memory PATH_MAX name size access r) w
      ≠ Returned v.
Proof.
  intros Hinit Hfree.
  assert (E : exec kernel (create_shared_memory PATH_MAX name size access r) w
              = ([], w, Aborted)).
  { apply exec_create_exhausted. unfold r0.
    rewrite init_initialized by done.
    by rewrite Hfree. }
  split; [done|]. intros v. unfold result_of. by rewrite E.
Qed.

(** C3. Let [i] be the entry [create_shared_memory] draws.  When the
    exclusive creation fails the call returns a null handle; when
    sizing fails it unlinks the object again and returns a null handle.
    A null handle is returned in these two cases only, and then the
    registry is the one the entry was drawn from: the free list is
    untouched and still starts with [i].  The entry leaves the free
    list only when a handle to it is returned. *)
Theorem create_failure_keeps_pool (i : nat) :
  list_first_entry (s_free_shmem r0) = Some i →
  (a2.1 = -1 →
     exec kernel (create_shared_memory PATH_MAX name size access r) w
       = ([(unlink, a1.1); (open, -1)], a2.2, Returned (NULL, r0))) ∧
  (a2.1 ≠ -1 → a3.1 = -1 →
     exec kernel (create_shared_memory PATH_MAX name size access r) w
       = ([(unlink, a1.1); (open, a2.1); (truncate, -1); (unlink, a4.1)],
          a4.2, Returned (NULL, r0))) ∧
  (s_initialized r = true → r0 = r) ∧
  ∀ (h : shmem_handle_t) (r' : registry),
    result_of kernel (create_shared_memory PATH_MAX name size access r) w
      = Returned (h, r') →
    (h = NULL ↔ a2.1 = -1 ∨ a3.1 = -1) ∧
    (h = NULL →
       r' = r0 ∧ s_free_shmem r' = s_free_shmem r0 ∧
       list_first_entry (s_free_shmem r') = Some i) ∧
    (h ≠ NULL →
       h = Entry i ∧ s_free_shmem r' = list_remove (s_free_shmem r0) i ∧
       s_free_shmem r0 = i :: s_free_shmem r').
Proof.
  intros Hhead. pose proof (exec_create i Hhead) as E.
  cbv zeta in E. fold r0 unlink open a1 a2 truncate a3 a4 in E.
  unfold result_of. rewrite E. clear E.
  split; [intros ->; done|].
  split.
  { intros Ho Ht. apply Z.eqb_neq in Ho. rewrite Ho, Ht. done. }
  split; [apply init_initialized|].
  intros h r'.
  destruct (Z.eqb_spec a2.1 (-1)) as [Ho|Ho]; cbn.
  { intros [= <- <-]. repeat split; (done || tauto). }
  destruct (Z.eqb_spec a3.1 (-1)) as [Ht|Ht]; cbn.
  { intros [= <- <-]. repeat split; (done || tauto). }
  destruct (s_shmem r0 !! i); [|done].
  intros [= <- <-]. cbn.
  split; [split; [done | tauto]|].
  split; [done|]. intros _.
  repeat split. by apply list_remove_head.
Qed.

Lemma create_sizing_failure_trace (i : nat) :
  list_first_entry (s_free_shmem r0) = Some i →
  a2.1 ≠ -1 →
  a3.1 = -1 →
  let fd := a2.1 in
  exec kernel (create_shared_memory PATH_MAX name size access r) w
    = ([(sys_shm_unlink (PStr name), a1.1);
        (sys_shm_open (PStr name) (create_flags access)
           (access_to_mode_flags access), fd);
        (sys_ftruncate fd (to_off_t size), -1);
        (sys_shm_unlink (PStr name), a4.1)],
       a4.2, Returned (NULL, r0)) ∧
  (∀ (fd' v : Z),
     (sys_close fd', v)
       ∉ trace_of kernel (create_shared_memory PATH_MAX name size access r) w) ∧
  s_shmem r0 = s_shmem r.
Proof.
  intros Hhead Ho Ht fd.
  pose proof (exec_create i Hhead) as E.
  cbv zeta in E. fold r0 unlink open a1 a2 truncate a3 a4 in E.
  unfold trace_of. rewrite E. clear E.
  apply Z.eqb_neq in Ho. rewrite Ho, Ht. cbn.
  split; [done|]. split; [|apply init_keeps_entries].
  intros fd' v Hin.
  repeat (apply elem_of_cons in Hin as [Hin|Hin]; [discriminate Hin|]).
  by apply elem_of_nil in Hin.
Qed.
End Create.

(** ** [destroy_shared_memory] and [map_shared_memory] *)

Section Destroy.
Context {OS : Type}.
Variable kernel : syscall → OS → Z * OS.
Variables (i : nat) (e : shmem_t) (r : registry) (w : OS).

Let r0 := init_shared_memory_entries r.
Let close := sys_close (handle e).
Let unlink := sys_shm_unlink (path_of_array (filename_memory e)).
Let a1 := kernel close w.
Let a2 := kernel unlink a1.2.

Lemma exec_destroy :
  s_shmem r !! i = Some e →
  exec kernel (destroy_shared_memory (Entry i) r) w =
    ([(close, a1.1); (unlink, a2.1)], a2.2,
     Returned ((a1.1 =? 0) && (a2.1 =? 0),
               Registry true (s_shmem r) (s_free_shmem r0 ++ [i]))).
Proof.
  intros H. unfold destroy_shared_memory, entry_of.
  rewrite init_keeps_entries, H. cbn [fmap option_fmap option_map].
  run_prog. fold close a1 unlink a2 r0.
  unfold with_free, list_add.
  by rewrite (init_sets_flag r : s_initialized r0 = true),
    (init_keeps_entries r : s_shmem r0 = s_shmem r).
Qed.

Lemma exec_map (offset start size : Z) (access : page_access_t) :
  s_shmem r !! i = Some e →
  let request := sys_mmap start size (access_to_protect_flags access)
                   map_flags (handle e) (to_off_t offset) in
  exec kernel (map_shared_memory (Entry i) offset start size access r) w =
    ([(request, (kernel request w).1)], (kernel request w).2,
     Returned (negb ((kernel request w).1 =? MAP_FAILED), r0)).
Proof.
  intros H request. unfold map_shared_memory, entry_of.
  rewrite init_keeps_entries, H. cbn [fmap option_fmap option_map].
  by run_prog.
Qed.

(** C6. For a handle to the entry [e = s_shmem[i]],
    [destroy_shared_memory] closes the entry's descriptor, unlinks the
    name read at the entry's [filename] and links the entry at the end
    of the free list, whatever the two calls answer; it returns true
    exactly when both calls answered 0. *)
Theorem destroy_always_recycles :
  s_shmem r !! i = Some e →
  ∃ (ok : bool) (r' : registry),
    exec kernel (destroy_shared_memory (Entry i) r) w =
      ([(sys_close (handle e), a1.1);
        (sys_shm_unlink (path_of_array (filename_memory e)), a2.1)],
       a2.2, Returned (ok, r')) ∧
    s_free_shmem r' = list_add (s_free_shmem r0) i ∧
    s_shmem r' = s_shmem r ∧
    (ok = true ↔ a1.1 = 0 ∧ a2.1 = 0).
Proof.
  intros H. eexists _, _. split; [by apply exec_destroy|].
  cbn. split; [done|]. split; [done|]. split.
  - intros [H1 H2]%andb_prop; lia.
  - by intros [-> ->].
Qed.
End Destroy.

(** ** The stored name *)

Lemma length_pad (n : nat) : String.length (pad n) = n.
Proof. induction n; cbn; congruence. Qed.

Lemma length_strncpy (s : string) (n : nat) :
  String.length (strncpy s n) = n.
Proof.
  revert s. induction n as [|n IH]; intros s; [done|].
  destruct s as [|c s]; cbn [strncpy].
  - apply (length_pad (S n)).
  - destruct (decide (c = NUL)); [apply (length_pad (S n))|].
    cbn. by rewrite IH.
Qed.

Lemma c_str_pad (n : nat) : c_str (pad (S n)) = Some EmptyString.
Proof. cbn. by rewrite decide_True. Qed.

Lemma c_str_strncpy_short (s : string) (n : nat) :
  nul_free s → (String.length s < n)%nat → c_str (strncpy s n) = Some s.
Proof.
  revert s. induction n as [|n IH]; intros s Hs Hlen; [lia|].
  destruct s as [|c s]; cbn [strncpy].
  - apply c_str_pad.
  - destruct Hs as [Hc Hs]. cbn in Hlen.
    rewrite decide_False by done. cbn [c_str].
    rewrite decide_False by done.
    rewrite IH by (done || lia). done.
Qed.

Lemma c_str_strncpy_long (s : string) (n : nat) :
  nul_free s → (n ≤ String.length s)%nat → c_str (strncpy s n) = None.
Proof.
  revert s. induction n as [|n IH]; intros s Hs Hlen; [done|].
  destruct s as [|c s]; cbn in Hlen; [lia|].
  destruct Hs as [Hc Hs]. cbn [strncpy].
  rewrite decide_False by done. cbn [c_str].
  rewrite decide_False by done.
  rewrite IH by (done || lia). done.
Qed.

Lemma strncpy_prefix (s : string) (n : nat) :
  nul_free s → (n ≤ String.length s)%nat →
  ∃ rest : string,
    s = String.append (strncpy s n) rest ∧
    String.length rest = (String.length s - n)%nat.
Proof.
  revert s. induction n as [|n IH]; intros s Hs Hlen.
  - exists s. cbn. split; [done | lia].
  - destruct s as [|c s]; cbn in Hlen; [lia|].
    destruct Hs as [Hc Hs]. cbn [strncpy].
    rewrite decide_False by done.
    destruct (IH s Hs ltac:(lia)) as (rest & E & Hrest).
    exists rest. split; [|done].
    change (String c s = String c (String.append (strncpy s n) rest)).
    by f_equal.
Qed.

Lemma length_c_str (a s : string) :
  c_str a = Some s → (String.length s < String.length a)%nat.
Proof.
  revert s. induction a as [|c a IH]; intros s; cbn; [done|].
  destruct (decide (c = NUL)).
  - intros [= <-]. cbn. lia.
  - destruct (c_str a) as [s'|]; [|done]. intros [= <-]. cbn.
    specialize (IH s' eq_refl). lia.
Qed.

Lemma create_success_inv PATH_MAX {OS} (kernel : syscall → OS → Z * OS)
    (name : string) (size : Z) (access : page_access_t) (r r' : registry)
    (w w' : OS) (tr : list event) (i : nat) :
  exec kernel (create_shared_memory PATH_MAX name size access r) w
    = (tr, w', Returned (Entry i, r')) →
  ∃ (fd : Z) (old : shmem_t),
    list_first_entry (s_free_shmem (init_shared_memory_entries r)) = Some i ∧
    s_shmem (init_shared_memory_entries r) !! i = Some old ∧
    r' = Registry true
           (<[i := Shmem (strncpy name PATH_MAX) fd]>
              (s_shmem (init_shared_memory_entries r)))
           (list_remove (s_free_shmem (init_shared_memory_entries r)) i) ∧
    (sys_shm_open (PStr name) (create_flags access)
       (access_to_mode_flags access), fd) ∈ tr ∧
    fd ≠ -1.
Proof.
  destruct (list_first_entry (s_free_shmem (init_shared_memory_entries r)))
    as [j|] eqn:Hhead.
  2: { by rewrite exec_create_exhausted. }
  rewrite (exec_create PATH_MAX kernel name size access r w j Hhead). cbv zeta.
  case_eqb Ho; [done|]. case_eqb Ht; [done|].
  destruct (s_shmem (init_shared_memory_entries r) !! j) as [old|] eqn:Hold;
    [|done].
  intros [= <- <- <- <-]. eexists _, old.
  repeat split; try done.
  apply elem_of_cons. right. apply elem_of_cons. by left.
Qed.

Section StoredName.
Variable PATH_MAX : nat.
Context {OS : Type}.
Variable kernel : syscall → OS → Z * OS.

Lemma stored_name_complete (name : string) :
  nul_free name →
  path_of_array (strncpy name PATH_MAX) = PStr name ↔
  (String.length name < PATH_MAX)%nat.
Proof.
  intros Hname. unfold path_of_array. split.
  - destruct (c_str (strncpy name PATH_MAX)) as [s|] eqn:E; [|done].
    intros [= ->]. apply length_c_str in E.
    by rewrite length_strncpy in E.
  - intros Hlen. by rewrite c_str_strncpy_short.
Qed.

Lemma c_str_app_some (a b s : string) :
  c_str a = Some s → c_str (a +:+ b) = Some s.
Proof.
  revert s. induction a as [|c a IH]; intros s; [done|].
  change (String c a +:+ b) with (String c (a +:+ b)). cbn [c_str].
  destruct (decide (c = NUL)); [done|].
  destruct (c_str a) as [s'|]; [|done]. intros [= <-].
  by rewrite (IH s' eq_refl).
Qed.

Lemma c_str_app_none (a b : string) :
  c_str a = None → c_str (a +:+ b) = String.append a <$> c_str b.
Proof.
  induction a as [|c a IH].
  - intros _. change (EmptyString +:+ b) with b. by destruct (c_str b).
  - change (String c a +:+ b) with (String c (a +:+ b)). cbn [c_str].
    destruct (decide (c = NUL)); [done|].
    destruct (c_str a) as [s'|]; [done|]. intros _.
    rewrite (IH eq_refl). by destruct (c_str b).
Qed.

Lemma append_inj (a x y : string) : a +:+ x = a +:+ y → x = y.
Proof.
  induction a as [|c a IH]; [done|].
  change (String c (a +:+ x) = String c (a +:+ y) → x = y).
  intros [= ?]. by apply IH.
Qed.

Lemma filename_memory_stored (name : string) (fd : Z) :
  filename_memory (Shmem (strncpy name PATH_MAX) fd)
    = strncpy name PATH_MAX +:+ after_filename PATH_MAX fd.
Proof. unfold filename_memory. cbn. by rewrite length_strncpy. Qed.

(** When the name fits, what is read at the entry's [filename] is the
    name, whatever follows the array. *)
Lemma stored_name_read_back (name : string) (fd : Z) :
  nul_free name →
  (String.length name < PATH_MAX)%nat →
  path_of_array (filename_memory (Shmem (strncpy name PATH_MAX) fd))
    = PStr name.
Proof.
  intros Hname Hlen. rewrite filename_memory_stored. unfold path_of_array.
  by rewrite (c_str_app_some _ _ name (c_str_strncpy_short _ _ Hname Hlen)).
Qed.

(** C10. [create_shared_memory] fills the entry's [filename] array,
    of [PATH_MAX] characters, with [strncpy].  The array holds the C
    string [name] exactly when [name] has fewer than [PATH_MAX]
    characters, and [destroy_shared_memory] then unlinks [name].
    Otherwise the array holds the first [PATH_MAX] characters of [name]
    and no terminator, and [shm_unlink] in [destroy_shared_memory] reads
    on into the padding and the [handle] field that follow the array:
    the name it is given is [name] only if the rest of [name] is what is
    read there. *)
Theorem create_stores_bounded_name (name : string) (size : Z)
    (access : page_access_t) (r r' : registry) (w w' : OS)
    (tr : list event) (i : nat) :
  nul_free name →
  exec kernel (create_shared_memory PATH_MAX name size access r) w
    = (tr, w', Returned (Entry i, r')) →
  let stored := strncpy name PATH_MAX in
  ∃ fd : Z,
    s_shmem r' !! i = Some (Shmem stored fd) ∧
    (sys_shm_open (PStr name) (create_flags access)
       (access_to_mode_flags access), fd) ∈ tr ∧
    String.length stored = PATH_MAX ∧
    (path_of_array stored = PStr name ↔ (String.length name < PATH_MAX)%nat) ∧
    (∀ w1 : OS,
       (trace_of kernel (destroy_shared_memory (Entry i) r') w1).*1 =
         [sys_close fd;
          sys_shm_unlink
            (path_of_array (stored +:+ after_filename PATH_MAX fd))]) ∧
    ((String.length name < PATH_MAX)%nat →
       path_of_array (stored +:+ after_filename PATH_MAX fd) = PStr name) ∧
    ((PATH_MAX ≤ String.length name)%nat →
       c_str stored = None ∧
       ∃ rest : string,
         name = stored +:+ rest ∧
         String.length rest = (String.length name - PATH_MAX)%nat ∧
         (path_of_array (stored +:+ after_filename PATH_MAX fd) = PStr name ↔
            c_str (after_filename PATH_MAX fd) = Some rest)).
Proof.
  intros Hname Hexec. cbv zeta.
  destruct (create_success_inv _ _ _ _ _ _ _ _ _ _ _ Hexec)
    as (fd & old & Hhead & Hold & -> & Hopen & Hfd).
  assert (Hentry : <[i:=Shmem (strncpy name PATH_MAX) fd]>
                     (s_shmem (init_shared_memory_entries r)) !! i
                   = Some (Shmem (strncpy name PATH_MAX) fd)).
  { apply list_lookup_insert_eq. by eapply lookup_lt_Some. }
  exists fd. split; [done|]. split; [done|].
  split; [apply length_strncpy|].
  split; [by apply stored_name_complete|].
  split.
  { intros w1. unfold trace_of.
    rewrite (exec_destroy kernel i (Shmem (strncpy name PATH_MAX) fd)) by done.
    cbn [fst fmap list_fmap]. by rewrite filename_memory_stored. }
  split.
  { intros Hlen. rewrite <- filename_memory_stored.
    by apply stored_name_read_back. }
  intros Hlen.
  assert (Hnone : c_str (strncpy name PATH_MAX) = None)
    by by apply c_str_strncpy_long.
  split; [done|].
  destruct (strncpy_prefix name PATH_MAX Hname Hlen) as (rest & Hrest & Hlrest).
  exists rest. split; [done|]. split; [done|].
  unfold path_of_array. rewrite (c_str_app_none _ _ Hnone).
  destruct (c_str (after_filename PATH_MAX fd)) as [t|]; cbn.
  - split.
    + intros [= E]. f_equal. apply (append_inj (strncpy name PATH_MAX)).
      congruence.
    + intros [= ->]. by rewrite <- Hrest.
  - split; intros; done.
Qed.
End StoredName.

(** ** The pool invariant *)

Global Instance Entry_inj : Inj (=) (=) Entry.
Proof. by intros i j [= ->]. Qed.

Section Pool.
Variable PATH_MAX : nat.
Context {OS : Type}.
Variable kernel : syscall → OS → Z * OS.

Local Abbreviation client := (@client OS).
Local Abbreviation step := (step PATH_MAX kernel).
Local Abbreviation run_ops := (run_ops PATH_MAX kernel).
Local Abbreviation untouched := (untouched PATH_MAX).

Lemma accounted_partitioned (s : client) : accounted s → partitioned s.
Proof.
  intros [_ Hperm].
  assert (Hnd : NoDup ((Entry <$> s_free_shmem (reg s)) ++ live s)).
  { rewrite Hperm. apply (NoDup_fmap_2 _), NoDup_seq. }
  apply NoDup_app in Hnd as (Hfree & Hdisj & Hlive).
  apply (NoDup_fmap Entry) in Hfree.
  split; [done|]. split; [done|]. intros i.
  assert (Hin : (i < MAX_SHMEM)%nat ↔
                i ∈ s_free_shmem (reg s) ∨ Entry i ∈ live s).
  { rewrite <- (list_elem_of_fmap_inj Entry (s_free_shmem (reg s)) i).
    rewrite <- elem_of_app, Hperm, (list_elem_of_fmap_inj Entry).
    rewrite elem_of_seq. lia. }
  specialize (Hdisj (Entry i)).
  rewrite (list_elem_of_fmap_inj Entry) in Hdisj.
  rewrite Hin.
  destruct (decide (i ∈ s_free_shmem (reg s))); tauto.
Qed.

Lemma init_start :
  init_shared_memory_entries (registry_start PATH_MAX) =
    Registry true (replicate MAX_SHMEM (Shmem (pad PATH_MAX) 0))
      (seq 0 MAX_SHMEM).
Proof. by rewrite init_uninitialized. Qed.

(** Whatever call comes first, once [init_shared_memory_entries] has
    run the pool is accounted for. *)
Lemma init_accounts (s : client) :
  untouched s ∨ accounted s →
  accounted (Client (init_shared_memory_entries (reg s)) (live s) (os s)).
Proof.
  intros [[Hreg Hlive] | [Hinit Hperm]]; unfold accounted; cbn.
  - rewrite Hreg, Hlive, init_start. cbn [s_initialized s_free_shmem].
    by rewrite app_nil_r.
  - by rewrite init_initialized.
Qed.

Lemma give_back_perm (h : shmem_handle_t) (l : list shmem_handle_t) :
  h ∈ l → l ≡ₚ h :: give_back h l.
Proof.
  induction l as [|x l IH]; [by intros ?%elem_of_nil|].
  cbn. destruct (decide (x = h)) as [->|Hne]; [done|].
  intros [?|Hin]%elem_of_cons; [congruence|].
  rewrite (IH Hin) at 1. apply Permutation_swap.
Qed.

Lemma untouched_no_handle (s : client) (h : shmem_handle_t) :
  untouched s → h ∉ live s.
Proof. intros [_ ->]. apply not_elem_of_nil. Qed.


Lemma step_create_accounted name size access (s s' : client) :
  untouched s ∨ accounted s →
  step (op_create name size access) s = Some s' →
  accounted s' ∧ pool_effect (op_create name size access) s s'.
Proof.
  intros [Hinit Hperm]%init_accounts. cbn in Hinit, Hperm.
  unfold step, pool_effect.
  destruct (list_first_entry (s_free_shmem (init_shared_memory_entries (reg s))))
    as [i|] eqn:Hhead.
  2: { by rewrite exec_create_exhausted. }
  rewrite (exec_create PATH_MAX kernel name size access (reg s) (os s) i Hhead).
  cbv zeta.
  case_eqb Ho; [|case_eqb Ht].
  - intros [= <-]. cbn. split; [done | by left].
  - intros [= <-]. cbn. split; [done | by left].
  - destruct (s_shmem (init_shared_memory_entries (reg s)) !! i); [|done].
    intros [= <-]. cbn.
    pose proof (list_remove_head _ _ Hhead) as Hfree.
    split; [split; [done|] | right; by exists i].
    cbn. rewrite <- Hperm. rewrite Hfree at 2.
    rewrite fmap_cons. cbn. by rewrite Permutation_middle.
Qed.

Lemma step_destroy_accounted h (s s' : client) :
  untouched s ∨ accounted s →
  step (op_destroy h) s = Some s' →
  accounted s' ∧ pool_effect (op_destroy h) s s'.
Proof.
  intros Hs. unfold step, pool_effect.
  destruct (decide (h ∈ live s)) as [Hin|]; [|done].
  destruct Hs as [Hs|[Hinit Hperm]]; [by apply untouched_no_handle in Hin|].
  assert (∃ i, h = Entry i) as [i ->].
  { assert (Hh : h ∈ Entry <$> seq 0 MAX_SHMEM).
    { rewrite <- Hperm. apply elem_of_app. by right. }
    apply list_elem_of_fmap in Hh as (i & -> & _). by exists i. }
  destruct (s_shmem (reg s) !! i) as [e|] eqn:He.
  2: { unfold destroy_shared_memory, entry_of.
       by rewrite init_keeps_entries, He. }
  rewrite (exec_destroy kernel i e) by done.
  rewrite init_initialized by done.
  intros [= <-]. cbn.
  pose proof (give_back_perm _ _ Hin) as Hlive.
  split; [split; [done|] | by exists i].
  cbn. rewrite <- Hperm. rewrite Hlive at 2.
  rewrite fmap_app, <- app_assoc. done.
Qed.

Lemma step_map_accounted h offset start size access (s s' : client) :
  untouched s ∨ accounted s →
  step (op_map h offset start size access) s = Some s' →
  accounted s' ∧ pool_effect (op_map h offset start size access) s s'.
Proof.
  intros Hs. unfold step, pool_effect.
  destruct (decide (h ∈ live s)) as [Hin|]; [|done].
  destruct Hs as [Hs|[Hinit Hperm]]; [by apply untouched_no_handle in Hin|].
  unfold map_shared_memory.
  destruct (entry_of h _) as [[i e]|]; [|done].
  run_prog. rewrite init_initialized by done.
  by intros [= <-].
Qed.

Lemma step_unmap_accounted h start size (s s' : client) :
  untouched s ∨ accounted s →
  step (op_unmap h start size) s = Some s' →
  accounted s' ∧ pool_effect (op_unmap h start size) s s'.
Proof.
  intros Hs. unfold step, pool_effect.
  destruct (decide (h ∈ live s)) as [Hin|]; [|done].
  destruct Hs as [Hs|Hs]; [by apply untouched_no_handle in Hin|].
  unfold unmap_shared_memory. run_prog.
  by intros [= <-].
Qed.

Lemma step_accounted (op : regop) (s s' : client) :
  untouched s ∨ accounted s →
  step op s = Some s' →
  accounted s' ∧ pool_effect op s s'.
Proof.
  destruct op; eauto using step_create_accounted, step_destroy_accounted,
    step_map_accounted, step_unmap_accounted.
Qed.

Lemma run_ops_accounted (ops : list regop) (s s' : client) :
  untouched s ∨ accounted s →
  run_ops ops s = Some s' →
  (ops = [] ∧ s' = s) ∨ (ops ≠ [] ∧ accounted s').
Proof.
  revert s. induction ops as [|op ops IH]; intros s Hs; cbn.
  - intros [= <-]. by left.
  - destruct (step op s) as [s1|] eqn:Hstep; [|done].
    apply step_accounted in Hstep as [Hs1 _]; [|done].
    intros Hrun. right. split; [done|].
    destruct (IH s1 (or_intror Hs1) Hrun) as [[_ ->]|[_ ?]]; done.
Qed.

(** C5. Start from the loader's state and let a client make registry
    calls, passing the handles it holds.  The first call links the
    [MAX_SHMEM] entries into the free list, each once; no later call
    links them again.  After every call the pool is partitioned into
    the free list and the handles held.  A successful
    [create_shared_memory] takes exactly the first entry off the free
    list, a failed one takes none, and [destroy_shared_memory] links
    exactly the destroyed entry back. *)
Theorem pool_partition_preserved (w : OS) (ops : list regop) (op : regop)
    (s s' : client) :
  run_ops ops (client_start PATH_MAX w) = Some s →
  step op s = Some s' →
  s_free_shmem (init_shared_memory_entries (registry_start PATH_MAX))
    = seq 0 MAX_SHMEM ∧
  (ops = [] → reg s = registry_start PATH_MAX) ∧
  (ops ≠ [] → init_shared_memory_entries (reg s) = reg s) ∧
  s_initialized (reg s') = true ∧
  init_shared_memory_entries (reg s') = reg s' ∧
  partitioned s' ∧
  pool_effect op s s'.
Proof.
  intros Hrun Hstep.
  assert (Hstart : untouched (client_start PATH_MAX w) ∨
                   accounted (client_start PATH_MAX w)) by by left.
  pose proof (run_ops_accounted _ _ _ Hstart Hrun) as Hs.
  assert (Hs' : untouched s ∨ accounted s).
  { destruct Hs as [[_ ->]|[_ ?]]; [by left | by right]. }
  destruct (step_accounted _ _ _ Hs' Hstep) as [Hacc Heff].
  split; [by rewrite init_start|].
  split; [intros ->; by injection Hrun as <-|].
  split.
  { intros Hne. destruct Hs as [[? _]|[_ [? _]]]; [done|].
    by apply init_initialized. }
  split; [apply Hacc|].
  split; [apply init_initialized, Hacc|].
  split; [by apply accounted_partitioned | done].
Qed.
End Pool.

(** ** On the reference kernel *)








Lemma posix_unlink_keeps_fds (p : path_arg) (w : os_state) :
  fd_table (posix_kernel (sys_shm_unlink p) w).2 = fd_table w.
Proof. unfold posix_kernel, serve. by repeat case_match. Qed.

Lemma posix_ftruncate_keeps_fds (fd len : Z) (w : os_state) :
  fd_table (posix_kernel (sys_ftruncate fd len) w).2 = fd_table w.
Proof. unfold posix_kernel, serve. by repeat case_match. Qed.

Lemma posix_open_adds_fd (p : path_arg) (oflag mode : Z) (w : os_state) :
  (posix_kernel (sys_shm_open p oflag mode) w).1 ≠ -1 →
  ∃ o : nat,
    fd_table (posix_kernel (sys_shm_open p oflag mode) w).2
      = <[(posix_kernel (sys_shm_open p oflag mode) w).1 := o]> (fd_table w).
Proof.
  unfold posix_kernel, serve, open_fd.
  repeat case_match; cbn; try done; intros _; by eexists.
Qed.

(** C9. When sizing the object fails in [create_shared_memory], on
    descriptor [fd] which the exclusive creation has just opened, the
    function unlinks the name and returns a null handle, and the registry
    is the one the entry was drawn from: no entry records [fd].  The
    function makes no [close] call.  On the reference kernel, [fd] is
    therefore still open when the function has returned: each such
    failure leaves one descriptor behind. *)
Theorem create_sizing_failure_leaks_descriptor PATH_MAX (name : string)
    (size : Z) (access : page_access_t) (r : registry) :
  (∀ (OS : Type) (kernel : syscall → OS → Z * OS) (w : OS) (fd len : Z),
     (sys_ftruncate fd len, -1)
       ∈ trace_of kernel (create_shared_memory PATH_MAX name size access r) w →
     fd ≠ -1 ∧
     (∃ v1 v4 : Z,
        trace_of kernel (create_shared_memory PATH_MAX name size access r) w =
          [(sys_shm_unlink (PStr name), v1);
           (sys_shm_open (PStr name) (create_flags access)
              (access_to_mode_flags access), fd);
           (sys_ftruncate fd (to_off_t size), -1);
           (sys_shm_unlink (PStr name), v4)]) ∧
     result_of kernel (create_shared_memory PATH_MAX name size access r) w
       = Returned (NULL, init_shared_memory_entries r) ∧
     s_shmem (init_shared_memory_entries r) = s_shmem r ∧
     ∀ fd' v : Z,
       (sys_close fd', v)
         ∉ trace_of kernel (create_shared_memory PATH_MAX name size access r) w) ∧
  (∀ (w : os_state) (fd len : Z),
     (sys_ftruncate fd len, -1)
       ∈ trace_of posix_kernel (create_shared_memory PATH_MAX name size access r) w →
     ∃ o : nat,
       fd_table (world_of posix_kernel
                   (create_shared_memory PATH_MAX name size access r) w)
         = <[fd := o]> (fd_table w)).
Proof.
  assert (Hinv : ∀ (OS : Type) (kernel : syscall → OS → Z * OS) (w : OS)
                   (fd len : Z),
    (sys_ftruncate fd len, -1)
      ∈ trace_of kernel (create_shared_memory PATH_MAX name size access r) w →
    let a1 := kernel (sys_shm_unlink (PStr name)) w in
    let a2 := kernel (sys_shm_open (PStr name) (create_flags access)
                        (access_to_mode_flags access)) a1.2 in
    let a3 := kernel (sys_ftruncate a2.1 (to_off_t size)) a2.2 in
    ∃ i : nat,
      list_first_entry (s_free_shmem (init_shared_memory_entries r)) = Some i ∧
      a2.1 = fd ∧ fd ≠ -1 ∧ a3.1 = -1).
  { intros OS kernel w fd len. unfold trace_of.
    destruct (list_first_entry (s_free_shmem (init_shared_memory_entries r)))
      as [i|] eqn:Hhead.
    2: { rewrite exec_create_exhausted by done. by intros ?%elem_of_nil. }
    rewrite (exec_create PATH_MAX kernel name size access r w i Hhead).
    cbv zeta. case_eqb Ho; [|case_eqb Ht]; cbn; intros Hin;
      repeat (apply elem_of_cons in Hin as [Hin|Hin];
              [try discriminate Hin|]);
      try (by apply elem_of_nil in Hin).
    - injection Hin as -> _. by exists i.
    - injection Hin as _ _ Hv. by rewrite <- Hv in Ht. }
  split.
  - intros OS kernel w fd len Hin.
    destruct (Hinv OS kernel w fd len Hin) as (i & Hhead & Ho & Hfd & Ht).
    destruct (create_sizing_failure_trace PATH_MAX kernel name size access r w i)
      as (E & Hclose & Hentries); [done | by rewrite Ho | done |].
    rewrite Ho in E. unfold trace_of, result_of. rewrite E. cbn.
    split; [done|]. split; [by eexists _, _|]. split; [done|].
    split; [done|]. intros fd' v. specialize (Hclose fd' v).
    unfold trace_of in Hclose. by rewrite E in Hclose.
  - intros w fd len Hin.
    destruct (Hinv _ posix_kernel w fd len Hin) as (i & Hhead & Ho & Hfd & Ht).
    destruct (create_sizing_failure_trace PATH_MAX posix_kernel name size access r w i)
      as (E & _); [done | by rewrite Ho | done |].
    unfold world_of. rewrite E. cbn [fst snd].
    rewrite posix_unlink_keeps_fds, posix_ftruncate_keeps_fds.
    destruct (posix_open_adds_fd (PStr name) (create_flags access)
                (access_to_mode_flags access)
                (posix_kernel (sys_shm_unlink (PStr name)) w).2) as [o Hopen].
    { by rewrite Ho. }
    exists o. by rewrite Hopen, Ho, posix_unlink_keeps_fds.
Qed.

(** * Sample runs *)

Lemma reserve_pages_detects_collisions_witness :
  exec posix_kernel (reserve_pages 65536 4096) os_boot
    = ([(sys_mmap 65536 4096 PROT_NONE reserve_flags (-1) 0, 65536)],
       with_mappings os_boot [(65536, 4096)], Returned true).
Proof.
  apply (reserve_pages_detects_collisions posix_kernel 65536 4096 os_boot);
    vm_compute; congruence.
Defined.

Lemma create_aborts_when_pool_exhausted_witness :
  s_initialized exhausted_registry = true ∧
  s_free_shmem exhausted_registry = [] ∧
  exec posix_kernel
    (create_shared_memory 8 "x" 4096 ACC_READWRITE exhausted_registry) sample_os
    = ([], sample_os, Aborted).
Proof.
  split; [reflexivity|]. split; [reflexivity|].
  apply (create_aborts_when_pool_exhausted 8 posix_kernel "x" 4096
           ACC_READWRITE exhausted_registry sample_os); reflexivity.
Defined.

Lemma create_failure_keeps_pool_witness :
  list_first_entry
    (s_free_shmem (init_shared_memory_entries (registry_start 8))) = Some 0%nat ∧
  result_of posix_kernel
    (create_shared_memory 8 "x" 4096 ACC_READWRITE (registry_start 8))
    (with_faults os_boot [false; true])
    = Returned (NULL, init_shared_memory_entries (registry_start 8)).
Proof.
  split; [reflexivity|].
  pose proof (create_failure_keeps_pool 8 posix_kernel "x" 4096 ACC_READWRITE
                (registry_start 8) (with_faults os_boot [false; true]) 0%nat
                eq_refl) as [Hopen _].
  unfold result_of. rewrite Hopen; reflexivity.
Defined.



Lemma pool_partition_preserved_witness :
  ∃ s s' : client,
    run_ops 8 posix_kernel
      [op_create "x" 4096 ACC_READWRITE; op_create "y" 4096 ACC_READWRITE;
       op_map (Entry 0) 0 65536 4096 ACC_READWRITE;
       op_destroy (Entry 0)]
      (client_start 8 os_boot) = Some s ∧
    step 8 posix_kernel (op_create "z" 4096 ACC_READWRITE) s = Some s' ∧
    live s' = [Entry 2; Entry 1] ∧
    partitioned s'.
Proof.
  eexists _, _. split; [vm_compute; reflexivity|].
  split; [vm_compute; reflexivity|].
  split; [reflexivity|].
  pose proof (pool_partition_preserved 8 posix_kernel os_boot
            [op_create "x" 4096 ACC_READWRITE; op_create "y" 4096 ACC_READWRITE;
             op_map (Entry 0) 0 65536 4096 ACC_READWRITE;
             op_destroy (Entry 0)]
            (op_create "z" 4096 ACC_READWRITE)) as H.
  eapply H.
  - vm_compute; reflexivity.
  - vm_compute; reflexivity.
Defined.

Lemma destroy_always_recycles_witness :
  s_shmem sample_registry !! 0%nat = Some (Shmem (strncpy "x" 8) 3) ∧
  ∃ r' : registry,
    result_of posix_kernel (destroy_shared_memory (Entry 0) sample_registry)
      sample_os = Returned (true, r') ∧
    s_free_shmem r' = seq 1 127 ++ [0%nat].
Proof.
  split; [reflexivity|].
  destruct (destroy_always_recycles posix_kernel 0%nat
              (Shmem (strncpy "x" 8) 3) sample_registry sample_os eq_refl)
    as (ok & r' & E & Hfree & _ & Hok).
  exists r'. unfold result_of. rewrite E. cbn [snd].
  split; [|exact Hfree].
  assert (ok = true) as -> by (apply Hok; split; reflexivity).
  reflexivity.
Defined.

Lemma allocation_granularity_is_page_size_witness :
  0 < 4096 < 2 ^ 31 ∧
  (∀ w : os_state, (posix_kernel sys_getpagesize w).1 = 4096) ∧
  result_of posix_kernel get_allocation_granularity sample_os = Returned 4096.
Proof.
  assert (Hpos : 0 < 4096 < 2 ^ 31) by lia.
  assert (Hconst : ∀ w : os_state, (posix_kernel sys_getpagesize w).1 = 4096)
    by (intros w; reflexivity).
  split; [exact Hpos|]. split; [exact Hconst|].
  apply (proj2 (allocation_granularity_is_page_size posix_kernel) 4096
           Hpos Hconst sample_os).
Defined.

Lemma create_sizing_failure_leaks_descriptor_witness :
  (sys_ftruncate 3 (to_off_t (2 ^ 63)), -1)
    ∈ trace_of posix_kernel
        (create_shared_memory 8 "x" (2 ^ 63) ACC_READWRITE (registry_start 8))
        os_boot ∧
  ∃ o : nat,
    fd_table (world_of posix_kernel
                (create_shared_memory 8 "x" (2 ^ 63) ACC_READWRITE
                   (registry_start 8)) os_boot)
      = <[3 := o]> (fd_table os_boot).
Proof.
  assert (Hin : (sys_ftruncate 3 (to_off_t (2 ^ 63)), -1)
    ∈ trace_of posix_kernel
        (create_shared_memory 8 "x" (2 ^ 63) ACC_READWRITE (registry_start 8))
        os_boot).
  { vm_compute. apply elem_of_cons; right. apply elem_of_cons; right.
    apply elem_of_cons; left. reflexivity. }
  split; [exact Hin|].
  apply (proj2 (create_sizing_failure_leaks_descriptor 8 "x" (2 ^ 63)
                  ACC_READWRITE (registry_start 8)) os_boot 3 _ Hin).
Defined.

Lemma create_stores_bounded_name_witness :
  nul_free "abcdef" ∧
  ∃ (tr : list event) (w' : os_state) (r' : registry),
    exec posix_kernel
      (create_shared_memory 4 "abcdef" 4096 ACC_READWRITE (registry_start 4))
      os_boot = (tr, w', Returned (Entry 0, r')) ∧
    ∃ fd : Z,
      s_shmem r' !! 0%nat = Some (Shmem (strncpy "abcdef" 4) fd) ∧
      c_str (strncpy "abcdef" 4) = None.
Proof.
  assert (Hname : nul_free "abcdef") by (vm_compute; repeat split; discriminate).
  split; [exact Hname|].
  eexists _, _, _.
  match goal with
  | |- ?R = _ ∧ _ => assert (Hrun : R = _) by (vm_compute; reflexivity)
  end.
  split; [exact Hrun|].
  destruct (create_stores_bounded_name 4 posix_kernel "abcdef" 4096
              ACC_READWRITE (registry_start 4) _ os_boot _ _ 0%nat Hname Hrun)
    as (fd & Hentry & _ & _ & _ & _ & _ & Hlong).
  exists fd. split; [exact Hentry|].
  apply Hlong. vm_compute; lia.
Defined.

(** A name one character longer than the array, that character being the
    low byte of the descriptor: the stored copy is truncated and not
    terminated, and [destroy_shared_memory] unlinks the very name that
    was created. *)
Lemma create_stores_bounded_name_counterexample :
  nul_free sample_long_name ∧
  (4 ≤ String.length sample_long_name)%nat ∧
  sample_long_create.2 = Returned (Entry 0, sample_long_registry) ∧
  s_shmem sample_long_registry !! 0%nat = Some (Shmem "abcd" 3) ∧
  c_str "abcd" = None ∧
  shm_names sample_long_create.1.2 !! sample_long_name = Some 0%nat ∧
  exec posix_kernel (destroy_shared_memory (Entry 0) sample_long_registry)
    sample_long_create.1.2
    = ([(sys_close 3, 0); (sys_shm_unlink (PStr sample_long_name), 0)],
       (exec posix_kernel (destroy_shared_memory (Entry 0) sample_long_registry)
          sample_long_create.1.2).1.2,
       Returned (true,
                 with_free sample_long_registry (seq 1 127 ++ [0%nat]))) ∧
  shm_names
    (exec posix_kernel (destroy_shared_memory (Entry 0) sample_long_registry)
       sample_long_create.1.2).1.2 !! sample_long_name = None.
Proof.
  split; [vm_compute; repeat split; discriminate|].
  split; [vm_compute; lia|].
  split; [vm_compute; reflexivity|].
  split; [vm_compute; reflexivity|].
  split; [vm_compute; reflexivity|].
  split; [vm_compute; reflexivity|].
  split; vm_compute; reflexivity.
Qed.

(** The pool holds [MAX_SHMEM] segments: that many creations in a row
    succeed on the reference kernel, and the next one stops the
    process. *)
Example pool_exhaustion_run :
  ∃ s : client,
    run_ops 8 posix_kernel
      (replicate MAX_SHMEM (op_create "x" 4096 ACC_READWRITE))
      (client_start 8 os_boot) = Some s ∧
    s_free_shmem (reg s) = [] ∧
    length (live s) = MAX_SHMEM ∧
    result_of posix_kernel
      (create_shared_memory 8 "x" 4096 ACC_READWRITE (reg s)) (os s) = Aborted.
Proof.
  eexists. split; [vm_compute; reflexivity|].
  repeat split; vm_compute; reflexivity.
Qed.

(** * Further properties *)

(** ** Access modes *)

(** The access mode bits of [open(2)] flags ([O_ACCMODE]). *)
Lemma access_mode_of_create_flags (access : page_access_t) :
  Z.land (create_flags access) 3 = access_to_open_flags access.
Proof. by destruct access. Qed.

(** X1. The protection asked of [mprotect] and [mmap] carries the read
    bit for every mode but [ACC_NONE], the write bit for the two
    read-write modes and the execute bit for [ACC_READWRITEEXEC] only;
    distinct modes give distinct protections. *)
Theorem protect_flags_encode_access (access access' : page_access_t) :
  (has_flag PROT_READ (access_to_protect_flags access) = true ↔
     access ≠ ACC_NONE) ∧
  (has_flag PROT_WRITE (access_to_protect_flags access) = true ↔
     access = ACC_READWRITE ∨ access = ACC_READWRITEEXEC) ∧
  (has_flag PROT_EXEC (access_to_protect_flags access) = true ↔
     access = ACC_READWRITEEXEC) ∧
  (access_to_protect_flags access = access_to_protect_flags access' →
     access = access').
Proof.
  destruct access; repeat split; try (intros; vm_compute; done);
    try (vm_compute; intros; (done || (left; done) || (right; done)));
    try (intros [H|H]; discriminate H);
    destruct access'; vm_compute; intros; done.
Qed.

(** X2. A segment is opened for writing, and gets owner-write
    permission, for [ACC_READWRITE] only.  [ACC_READWRITEEXEC] falls
    into the [default] branches like [ACC_NONE]: the object is created
    read-only with permission bits 0, so [create_shared_memory] behaves
    for it exactly as for [ACC_NONE], although a mapping with that mode
    asks for write and execute access. *)
Theorem create_access_defaults PATH_MAX (name : string) (size : Z)
    (access : page_access_t) (r : registry) :
  (Z.land (create_flags access) 3 = O_RDWR ↔ access = ACC_READWRITE) ∧
  (has_flag S_IWRITE (access_to_mode_flags access) = true ↔
     access = ACC_READWRITE) ∧
  (has_flag S_IREAD (access_to_mode_flags access) = true ↔
     access = ACC_READONLY ∨ access = ACC_READWRITE) ∧
  create_shared_memory PATH_MAX name size ACC_READWRITEEXEC r
    = create_shared_memory PATH_MAX name size ACC_NONE r ∧
  create_flags ACC_READWRITEEXEC = Z.lor (Z.lor O_RDONLY O_CREAT) O_EXCL ∧
  access_to_mode_flags ACC_READWRITEEXEC = 0 ∧
  has_flag PROT_WRITE (access_to_protect_flags ACC_READWRITEEXEC) = true.
Proof.
  split; [|split; [|split]].
  - destruct access; vm_compute; split; intros; done.
  - destruct access; vm_compute; split; intros; done.
  - destruct access; split;
      try (intros [?|?]; (done || (vm_compute; done)));
      vm_compute; intros; first [done | by left | by right].
  - done.
Qed.

(** ** [protect_pages] and [map_shared_memory] *)

Section ProtectMap.
Context {OS : Type}.
Variable kernel : syscall → OS → Z * OS.

(** X3. [protect_pages] makes one [mprotect] call on the range, with
    the protection of the access mode, and returns true exactly when the
    call answers 0. *)
Theorem protect_pages_single_call (ptr size : Z) (access : page_access_t)
    (w : OS) :
  let request := sys_mprotect ptr size (access_to_protect_flags access) in
  exec kernel (protect_pages ptr size access) w =
    ([(request, (kernel request w).1)], (kernel request w).2,
     Returned (bool_decide ((kernel request w).1 = 0))) ∧
  (result_of kernel (protect_pages ptr size access) w = Returned true ↔
     (kernel request w).1 = 0).
Proof.
  intros request. unfold result_of, protect_pages. run_prog. fold request.
  cbn [fst snd]. destruct (Z.eqb_spec (kernel request w).1 0) as [E|E].
  - rewrite bool_decide_eq_true_2 by done. by split.
  - rewrite bool_decide_eq_false_2 by done. split; [done|]. by split.
Qed.

(** X4. For a handle to the entry [e = s_shmem[i]], [map_shared_memory]
    makes one [mmap] call: shared, at the fixed address [start], not
    anonymous, on the descriptor stored in the entry.  It returns true
    exactly when the call does not answer [MAP_FAILED], and it touches
    neither the entries nor, once the pool is initialised, the free
    list. *)
Theorem map_shared_memory_fixed_shared (i : nat) (e : shmem_t)
    (offset start size : Z) (access : page_access_t) (r : registry) (w : OS) :
  s_shmem r !! i = Some e →
  let request := sys_mmap start size (access_to_protect_flags access)
                   map_flags (handle e) (to_off_t offset) in
  has_flag MAP_FIXED map_flags = true ∧
  has_flag MAP_SHARED map_flags = true ∧
  has_flag MAP_ANON map_flags = false ∧
  ∃ (ok : bool) (r' : registry),
    exec kernel (map_shared_memory (Entry i) offset start size access r) w =
      ([(request, (kernel request w).1)], (kernel request w).2,
       Returned (ok, r')) ∧
    (ok = true ↔ (kernel request w).1 ≠ MAP_FAILED) ∧
    r' = init_shared_memory_entries r ∧
    s_shmem r' = s_shmem r ∧
    (s_initialized r = true → r' = r).
Proof.
  intros He request. repeat split; try done.
  eexists _, _. split; [by apply exec_map|].
  split; [|split; [done|split; [apply init_keeps_entries|apply init_initialized]]].
  fold request. destruct (Z.eqb_spec (kernel request w).1 MAP_FAILED); cbn;
    split; intros; done.
Qed.
End ProtectMap.

(** ** Using the handle that [create_shared_memory] returns *)

Section HandleUse.
Variable PATH_MAX : nat.
Context {OS : Type}.
Variable kernel : syscall → OS → Z * OS.

(** X5. The handle of a successful [create_shared_memory] leads back to
    what the call opened: [map_shared_memory] maps the descriptor that
    [shm_open] answered, and [destroy_shared_memory] closes that
    descriptor and, for a well-formed name that fits the array, unlinks
    the very name that was created.  After the destruction the free list
    holds the same entries as before the creation. *)
Theorem create_handle_round_trip (name : string) (size : Z)
    (access : page_access_t) (r r' : registry) (w w' : OS)
    (tr : list event) (i : nat) :
  nul_free name →
  (String.length name < PATH_MAX)%nat →
  exec kernel (create_shared_memory PATH_MAX name size access r) w
    = (tr, w', Returned (Entry i, r')) →
  ∃ fd : Z,
    (sys_shm_open (PStr name) (create_flags access)
       (access_to_mode_flags access), fd) ∈ tr ∧
    fd ≠ -1 ∧
    (∀ (offset start sz : Z) (acc : page_access_t) (w1 : OS),
       (trace_of kernel (map_shared_memory (Entry i) offset start sz acc r') w1).*1
         = [sys_mmap start sz (access_to_protect_flags acc) map_flags fd
              (to_off_t offset)]) ∧
    (∀ w1 : OS,
       (trace_of kernel (destroy_shared_memory (Entry i) r') w1).*1
         = [sys_close fd; sys_shm_unlink (PStr name)]) ∧
    (∀ (w1 : OS) (ok : bool) (r'' : registry),
       result_of kernel (destroy_shared_memory (Entry i) r') w1
         = Returned (ok, r'') →
       s_free_shmem r'' ≡ₚ s_free_shmem (init_shared_memory_entries r)).
Proof.
  intros Hname Hlen Hexec.
  destruct (create_success_inv _ _ _ _ _ _ _ _ _ _ _ Hexec)
    as (fd & old & Hhead & Hold & -> & Hopen & Hfd).
  set (stored := Shmem (strncpy name PATH_MAX) fd).
  set (r0 := init_shared_memory_entries r) in *.
  assert (Hentry : <[i:=stored]> (s_shmem r0) !! i = Some stored).
  { apply list_lookup_insert_eq. by eapply lookup_lt_Some. }
  exists fd. split; [done|]. split; [done|]. split; [|split].
  - intros offset start sz acc w1. unfold trace_of.
    by rewrite (exec_map kernel i stored).
  - intros w1. unfold trace_of.
    rewrite (exec_destroy kernel i stored) by done. cbn.
    unfold stored.
    by rewrite (stored_name_read_back PATH_MAX name fd Hname Hlen).
  - intros w1 ok r''. unfold result_of.
    rewrite (exec_destroy kernel i stored) by done. cbn.
    intros [= _ <-]. cbn.
    rewrite (list_remove_head _ _ Hhead) at 2.
    by rewrite Permutation_app_comm.
Qed.

(** X6. [destroy_shared_memory] does not clear the entry: the descriptor
    and the name stay in [s_shmem].  A stale handle therefore still
    works on them: a second [destroy_shared_memory] makes the same
    [close] and [shm_unlink] calls again, and [map_shared_memory] maps
    the closed descriptor number. *)
Theorem destroy_leaves_entry_in_place (i : nat) (e : shmem_t) (r r' : registry)
    (w : OS) (ok : bool) :
  s_shmem r !! i = Some e →
  result_of kernel (destroy_shared_memory (Entry i) r) w = Returned (ok, r') →
  s_shmem r' = s_shmem r ∧
  (∀ w1 : OS,
     (trace_of kernel (destroy_shared_memory (Entry i) r') w1).*1
       = [sys_close (handle e); sys_shm_unlink (path_of_array (filename_memory e))]) ∧
  (∀ w1 : OS,
     (trace_of kernel (destroy_shared_memory (Entry i) r') w1).*1
       = (trace_of kernel (destroy_shared_memory (Entry i) r) w).*1) ∧
  (∀ (offset start sz : Z) (acc : page_access_t) (w1 : OS),
     (trace_of kernel (map_shared_memory (Entry i) offset start sz acc r') w1).*1
       = [sys_mmap start sz (access_to_protect_flags acc) map_flags (handle e)
            (to_off_t offset)]).
Proof.
  intros He. unfold result_of, trace_of.
  rewrite (exec_destroy kernel i e) by done. cbn.
  intros [= _ <-]. cbn. split; [done|].
  split; [|split].
  - intros w1. by rewrite (exec_destroy kernel i e).
  - intros w1. by rewrite (exec_destroy kernel i e).
  - intros offset start sz acc w1. by rewrite (exec_map kernel i e).
Qed.

(** X7. [init_shared_memory_entries] is idempotent and never touches the
    entries, and every registry that [create_shared_memory],
    [map_shared_memory] or [destroy_shared_memory] returns is
    initialised, so that the entries are linked at most once however the
    calls are mixed. *)
Theorem registry_calls_initialise (r r' : registry) (w : OS) :
  init_shared_memory_entries (init_shared_memory_entries r)
    = init_shared_memory_entries r ∧
  s_shmem (init_shared_memory_entries r) = s_shmem r ∧
  (∀ name size access h,
     result_of kernel (create_shared_memory PATH_MAX name size access r) w
       = Returned (h, r') →
     s_initialized r' = true ∧ init_shared_memory_entries r' = r') ∧
  (∀ h offset start size access ok,
     result_of kernel (map_shared_memory h offset start size access r) w
       = Returned (ok, r') →
     s_initialized r' = true ∧ init_shared_memory_entries r' = r') ∧
  (∀ h ok,
     result_of kernel (destroy_shared_memory h r) w = Returned (ok, r') →
     s_initialized r' = true ∧ init_shared_memory_entries r' = r').
Proof.
  assert (Hinit : ∀ r1, s_initialized r1 = true →
    s_initialized r1 = true ∧ init_shared_memory_entries r1 = r1).
  { intros r1 H. split; [done | by apply init_initialized]. }
  split; [apply init_idempotent|]. split; [apply init_keeps_entries|].
  split; [|split].
  - intros name size access h. unfold result_of.
    destruct (list_first_entry (s_free_shmem (init_shared_memory_entries r)))
      as [i|] eqn:Hhead.
    2: { by rewrite exec_create_exhausted. }
    rewrite (exec_create PATH_MAX kernel name size access r w i Hhead).
    cbv zeta. case_eqb Ho; [|case_eqb Ht]; cbn.
    + intros [= _ <-]. apply Hinit, init_sets_flag.
    + intros [= _ <-]. apply Hinit, init_sets_flag.
    + destruct (s_shmem (init_shared_memory_entries r) !! i); [|done].
      intros [= _ <-]. by apply Hinit.
  - intros h offset start size access ok. unfold result_of, map_shared_memory.
    destruct (entry_of h _) as [[i e]|]; [|done]. run_prog. cbn.
    intros [= _ <-]. apply Hinit, init_sets_flag.
  - intros h ok. unfold result_of, destroy_shared_memory.
    destruct (entry_of h _) as [[i e]|]; [|done]. run_prog. cbn.
    intros [= _ <-]. apply Hinit. cbn. apply init_sets_flag.
Qed.

(** X8. The size is handed to [ftruncate] as an [off_t]: unchanged below
    2^63, and as the negative number [size - 2^64] from 2^63 on.  No
    other length is ever passed. *)
Theorem create_passes_size_as_off_t (name : string) (size : Z)
    (access : page_access_t) (r : registry) (w : OS) :
  0 ≤ size < 2 ^ 64 →
  (size < 2 ^ 63 → to_off_t size = size) ∧
  (2 ^ 63 ≤ size → to_off_t size = size - 2 ^ 64 ∧ to_off_t size < 0) ∧
  ∀ fd len v : Z,
    (sys_ftruncate fd len, v)
      ∈ trace_of kernel (create_shared_memory PATH_MAX name size access r) w →
    len = to_off_t size.
Proof.
  intros Hsize. unfold to_off_t. split; [|split].
  - intros ?. rewrite Z.mod_small; lia.
  - intros ?.
    assert ((size + 2 ^ 63) mod 2 ^ 64 = size + 2 ^ 63 - 2 ^ 64) as ->.
    { symmetry. apply (Z.mod_unique_pos _ _ 1); lia. }
    lia.
  - intros fd len v. unfold trace_of.
    destruct (list_first_entry (s_free_shmem (init_shared_memory_entries r)))
      as [i|] eqn:Hhead.
    2: { rewrite exec_create_exhausted by done. by intros ?%elem_of_nil. }
    rewrite (exec_create PATH_MAX kernel name size access r w i Hhead).
    cbv zeta. case_eqb Ho; [|case_eqb Ht]; cbn; intros Hin;
      repeat (apply elem_of_cons in Hin as [Hin|Hin];
              [try discriminate Hin|]);
      try (by apply elem_of_nil in Hin);
      by injection Hin as _ -> _.
Qed.
End HandleUse.

(** ** Clients that keep to the handle contract *)

Section Contract.
Variable PATH_MAX : nat.
Context {OS : Type}.
Variable kernel : syscall → OS → Z * OS.

Local Abbreviation client := (@client OS).
Local Abbreviation step := (step PATH_MAX kernel).
Local Abbreviation run_ops := (run_ops PATH_MAX kernel).
Local Abbreviation untouched := (untouched PATH_MAX).

Lemma step_keeps_length (op : regop) (s s' : client) :
  step op s = Some s' →
  length (s_shmem (reg s')) = length (s_shmem (reg s)).
Proof.
  destruct op as [name size access|h offset start size access|h start size|h];
    unfold step.
  - destruct (list_first_entry (s_free_shmem (init_shared_memory_entries (reg s))))
      as [i|] eqn:Hhead.
    2: { by rewrite exec_create_exhausted. }
    rewrite (exec_create PATH_MAX kernel name size access (reg s) (os s) i Hhead).
    cbv zeta. case_eqb Ho; [|case_eqb Ht].
    + intros [= <-]. cbn. by rewrite init_keeps_entries.
    + intros [= <-]. cbn. by rewrite init_keeps_entries.
    + destruct (s_shmem (init_shared_memory_entries (reg s)) !! i); [|done].
      intros [= <-]. cbn. by rewrite length_insert, init_keeps_entries.
  - destruct (decide (h ∈ live s)) as [Hh|]; [|done]. unfold map_shared_memory.
    destruct (entry_of h _) as [[i e]|]; [|done]. run_prog.
    intros [= <-]. cbn. by rewrite init_keeps_entries.
  - destruct (decide (h ∈ live s)) as [Hh|]; [|done]. unfold unmap_shared_memory.
    run_prog. by intros [= <-].
  - destruct (decide (h ∈ live s)) as [Hh|]; [|done]. unfold destroy_shared_memory.
    destruct (entry_of h _) as [[i e]|]; [|done]. run_prog.
    intros [= <-]. cbn. by rewrite init_keeps_entries.
Qed.

Lemma run_ops_keeps_length (ops : list regop) (s s' : client) :
  run_ops ops s = Some s' →
  length (s_shmem (reg s')) = length (s_shmem (reg s)).
Proof.
  revert s. induction ops as [|op ops IH]; intros s; cbn.
  - by intros [= <-].
  - destruct (step op s) as [s1|] eqn:Hstep; [|done].
    intros Hrun. rewrite (IH _ Hrun). by eapply step_keeps_length.
Qed.

Lemma reached_state (w : OS) (ops : list regop) (s : client) :
  run_ops ops (client_start PATH_MAX w) = Some s →
  (untouched s ∨ accounted s) ∧ length (s_shmem (reg s)) = MAX_SHMEM.
Proof.
  intros Hrun. split.
  - assert (Hstart : untouched (client_start PATH_MAX w) ∨
                     accounted (client_start PATH_MAX w)) by by left.
    destruct (run_ops_accounted PATH_MAX kernel _ _ _ Hstart Hrun)
      as [[_ ->]|[_ ?]]; [by left | by right].
  - rewrite (run_ops_keeps_length _ _ _ Hrun). apply length_replicate.
Qed.



Lemma accounted_live_in_range (s : client) (h : shmem_handle_t) :
  accounted s → h ∈ live s →
  ∃ i : nat, h = Entry i ∧ (i < MAX_SHMEM)%nat ∧ i ∉ s_free_shmem (reg s).
Proof.
  intros Hs Hin. pose proof Hs as [_ Hperm].
  assert (Hh : h ∈ Entry <$> seq 0 MAX_SHMEM).
  { rewrite <- Hperm. apply elem_of_app. by right. }
  apply list_elem_of_fmap in Hh as (i & -> & Hi%elem_of_seq).
  exists i. split; [done|]. split; [lia|].
  destruct (accounted_partitioned s Hs) as (_ & _ & Hpart).
  destruct (proj1 (Hpart i) ltac:(lia)) as [[_ ?]|[? _]]; done.
Qed.

Lemma give_back_other (h x : shmem_handle_t) (l : list shmem_handle_t) :
  x ∈ l → x ≠ h → x ∈ give_back h l.
Proof.
  induction l as [|y l IH]; [by intros ?%elem_of_nil|].
  intros [->|Hin]%elem_of_cons Hne; cbn.
  - rewrite decide_False by done. apply elem_of_cons. by left.
  - destruct (decide (y = h)); [done|]. apply elem_of_cons. right. by apply IH.
Qed.

(** X9. While a client holds a handle, the entry behind it keeps its
    name and descriptor: no later registry call overwrites it, since
    [create_shared_memory] draws from the free list only.  The handle
    stays held until it is destroyed itself. *)
Theorem live_entry_is_stable (w : OS) (ops : list regop) (op : regop)
    (s s' : client) (i : nat) :
  run_ops ops (client_start PATH_MAX w) = Some s →
  step op s = Some s' →
  Entry i ∈ live s →
  s_shmem (reg s') !! i = s_shmem (reg s) !! i ∧
  is_Some (s_shmem (reg s) !! i) ∧
  (op ≠ op_destroy (Entry i) → Entry i ∈ live s').
Proof.
  intros Hrun Hstep Hlive.
  destruct (reached_state w ops s Hrun) as [Hs Hlen].
  destruct Hs as [Hs|Hs];
    [by destruct (untouched_no_handle PATH_MAX s (Entry i) Hs)|].
  destruct (accounted_live_in_range s _ Hs Hlive) as (i' & [= <-] & Hi & Hfree).
  assert (Hinit : init_shared_memory_entries (reg s) = reg s)
    by apply init_initialized, Hs.
  split; [|split; [apply lookup_lt_is_Some; lia|]]; revert Hstep;
    destruct op as [name size access|h offset start size access|h start size|h];
    unfold step.
  - destruct (list_first_entry (s_free_shmem (init_shared_memory_entries (reg s))))
      as [j|] eqn:Hhead.
    2: { by rewrite exec_create_exhausted. }
    rewrite (exec_create PATH_MAX kernel name size access (reg s) (os s) j Hhead).
    cbv zeta. rewrite Hinit in *. case_eqb Ho; [|case_eqb Ht].
    + by intros [= <-].
    + by intros [= <-].
    + destruct (s_shmem (reg s) !! j); [|done].
      intros [= <-]. cbn. apply list_lookup_insert_ne. intros ->.
      apply Hfree. destruct (s_free_shmem (reg s)); [done|].
      injection Hhead as ->. apply elem_of_cons. by left.
  - destruct (decide (h ∈ live s)) as [Hh|]; [|done]. unfold map_shared_memory.
    destruct (entry_of h _) as [[j e]|]; [|done]. run_prog.
    intros [= <-]. cbn. by rewrite Hinit.
  - destruct (decide (h ∈ live s)) as [Hh|]; [|done]. unfold unmap_shared_memory.
    run_prog. by intros [= <-].
  - destruct (decide (h ∈ live s)) as [Hh|]; [|done]. unfold destroy_shared_memory.
    destruct (entry_of h _) as [[j e]|]; [|done]. run_prog.
    intros [= <-]. cbn. by rewrite Hinit.
  - destruct (exec _ _ _) as [[? ?] [[h' ?]| |]]; [|done..].
    intros [= <-] _. cbn. destruct h'; cbn; [done|].
    apply elem_of_cons. by right.
  - destruct (decide (h ∈ live s)) as [Hh|]; [|done].
    destruct (exec _ _ _) as [[? ?] [[? ?]| |]]; [|done..].
    by intros [= <-].
  - destruct (decide (h ∈ live s)) as [Hh|]; [|done].
    destruct (exec _ _ _) as [[? ?] [?| |]]; [|done..].
    by intros [= <-].
  - destruct (decide (h ∈ live s)) as [Hh|]; [|done].
    destruct (exec _ _ _) as [[? ?] [[? ?]| |]]; [|done..].
    intros [= <-] Hne. cbn. apply give_back_other; [done|]. congruence.
Qed.
End Contract.

Section Capacity.
Variable PATH_MAX : nat.
Context {OS : Type}.
Variable kernel : syscall → OS → Z * OS.

Local Abbreviation client := (@client OS).
Local Abbreviation step := (step PATH_MAX kernel).
Local Abbreviation run_ops := (run_ops PATH_MAX kernel).




End Capacity.

(** ** Segments on the reference kernel *)





(** ** Reservations on the reference kernel *)

Lemma page_align_bounds (x : Z) : x ≤ page_align x < x + PAGE_SIZE.
Proof. unfold page_align, PAGE_SIZE. Z.to_euclidean_division_equations. lia. Qed.

Lemma page_align_aligned (x : Z) : page_aligned (page_align x) = true.
Proof.
  unfold page_aligned, page_align. apply Z.eqb_eq, Z.mod_mul. done.
Qed.

Lemma hint_address_aligned (ptr : Z) : page_aligned (hint_address ptr) = true.
Proof.
  unfold hint_address, page_floor. cbv zeta.
  repeat case_match; try done.
  unfold page_aligned. apply Z.eqb_eq, Z.mod_mul. done.
Qed.

Lemma hint_address_range (ptr : Z) :
  hint_address ptr = 0 ∨ MMAP_MIN_ADDR ≤ hint_address ptr.
Proof.
  unfold hint_address. cbv zeta.
  destruct (Z.eqb_spec (page_floor ptr) 0); [by left|right].
  destruct (Z.ltb_spec (page_floor ptr) MMAP_MIN_ADDR); lia.
Qed.

Lemma hint_address_id (ptr : Z) :
  page_aligned ptr = true → MMAP_MIN_ADDR ≤ ptr → hint_address ptr = ptr.
Proof.
  unfold page_aligned, hint_address, page_floor, PAGE_SIZE, MMAP_MIN_ADDR.
  intros Ha%Z.eqb_eq Hmin. cbv zeta.
  assert (ptr / 4096 * 4096 = ptr) as -> by
    (Z.to_euclidean_division_equations; lia).
  destruct (Z.eqb_spec ptr 0); [lia|].
  destruct (Z.ltb_spec ptr 65536); [lia | done].
Qed.

Lemma hint_address_fixed (ptr : Z) :
  hint_address ptr = ptr → ptr ≠ 0 →
  page_aligned ptr = true ∧ MMAP_MIN_ADDR ≤ ptr.
Proof.
  unfold page_aligned, hint_address, page_floor, PAGE_SIZE, MMAP_MIN_ADDR.
  cbv zeta. intros Hh H0.
  destruct (Z.eqb_spec (ptr / 4096 * 4096) 0); [lia|].
  destruct (Z.ltb_spec (ptr / 4096 * 4096) 65536).
  - subst ptr. done.
  - split; [apply Z.eqb_eq|]; Z.to_euclidean_division_equations; lia.
Qed.

Lemma range_free_above (a l : Z) (ms : list (Z * Z)) :
  above_all ms ≤ a → range_free a l ms = true.
Proof.
  unfold above_all. intros Ha.
  pose proof (page_align_bounds
                (foldr (λ m acc, Z.max (m.1 + m.2) acc) MMAP_MIN_ADDR ms)) as Hb.
  assert (Htop : foldr (λ m acc, Z.max (m.1 + m.2) acc) MMAP_MIN_ADDR ms ≤ a)
    by lia.
  clear Ha Hb. unfold range_free.
  induction ms as [|m ms IH]; [done|].
  cbn [foldr] in Htop. cbn [forallb]. rewrite IH by lia.
  unfold overlaps. destruct (Z.ltb_spec a (m.1 + m.2)); [lia | done].
Qed.

Lemma above_all_min (ms : list (Z * Z)) : MMAP_MIN_ADDR ≤ above_all ms.
Proof.
  unfold above_all.
  pose proof (page_align_bounds
                (foldr (λ m acc, Z.max (m.1 + m.2) acc) MMAP_MIN_ADDR ms)) as Hb.
  assert (MMAP_MIN_ADDR
          ≤ foldr (λ m acc, Z.max (m.1 + m.2) acc) MMAP_MIN_ADDR ms).
  { clear Hb. induction ms as [|m ms IH]; cbn [foldr]; lia. }
  lia.
Qed.

Lemma unmap_range_free (a l : Z) (ms : list (Z * Z)) :
  range_free a l ms = true → unmap_range a l ms = ms.
Proof.
  unfold range_free, unmap_range.
  induction ms as [|m ms IH]; [done|].
  cbn [forallb map concat]. intros [Hm Hms]%andb_prop.
  apply negb_true_iff in Hm. rewrite IH by done. unfold carve. by rewrite Hm.
Qed.

Lemma unmap_range_fresh (a l : Z) (ms : list (Z * Z)) :
  0 < l → range_free a l ms = true → unmap_range a l ((a, l) :: ms) = ms.
Proof.
  intros Hl Hfree.
  change (unmap_range a l ((a, l) :: ms))
    with (carve a l (a, l) ++ unmap_range a l ms).
  rewrite unmap_range_free by done.
  unfold carve, overlaps. cbn [fst snd].
  destruct (Z.ltb_spec a (a + l)) as [_|?]; [|lia].
  cbn [andb]. by rewrite !Z.ltb_irrefl.
Qed.

(** What the kernel answers to the request of [reserve_pages]. *)
Lemma posix_reserve_request (ptr size : Z) (w : os_state) :
  faults w = [] →
  posix_kernel (sys_mmap ptr size PROT_NONE reserve_flags (-1) 0) w =
    if (size <=? 0) || (TASK_SIZE <? page_align size) then (MAP_FAILED, w)
    else if negb (hint_address ptr =? 0) &&
            (hint_address ptr + page_align size <=? TASK_SIZE) &&
            range_free (hint_address ptr) (page_align size) (mappings w)
    then (hint_address ptr,
          with_mappings w ((hint_address ptr, page_align size) :: mappings w))
    else if above_all (mappings w) + page_align size <=? TASK_SIZE
    then (above_all (mappings w),
          with_mappings w
            ((above_all (mappings w), page_align size) :: mappings w))
    else (MAP_FAILED, w).
Proof.
  intros Hf. unfold posix_kernel. rewrite Hf. unfold serve. cbv zeta.
  change (Z.land reserve_flags 3 =? MAP_SHARED) with false.
  change (Z.land reserve_flags 3 =? MAP_PRIVATE) with true.
  change (has_flag MAP_ANON reserve_flags) with true.
  change (has_flag MAP_FIXED reserve_flags) with false.
  change (page_aligned 0) with true.
  cbn [negb orb andb].
  rewrite !orb_false_r.
  by destruct ((size <=? 0) || (TASK_SIZE <? page_align size)).
Qed.

(** Unmapping a range that was mapped into free space. *)
Lemma posix_munmap_fresh (a size : Z) (ms : list (Z * Z)) (w : os_state) :
  faults w = [] →
  0 < size →
  page_aligned a = true →
  a + page_align size ≤ TASK_SIZE →
  range_free a (page_align size) ms = true →
  posix_kernel (sys_munmap a size)
    (with_mappings w ((a, page_align size) :: ms))
  = (0, with_mappings w ms).
Proof.
  intros Hf Hsize Ha Hfit Hfree. unfold posix_kernel.
  cbn [faults with_mappings]. rewrite Hf. cbn [serve].
  rewrite Ha. cbn [negb orb].
  destruct (Z.leb_spec size 0) as [?|_]; [lia|].
  destruct (Z.ltb_spec TASK_SIZE (a + page_align size)) as [?|_]; [lia|].
  cbn [orb mappings with_mappings shm_names object_modes fd_table fd_flags
       next_object next_fd faults].
  rewrite unmap_range_fresh; [done| |done].
  pose proof (page_align_bounds size). lia.
Qed.

Lemma with_mappings_id (w : os_state) : with_mappings w (mappings w) = w.
Proof. by destruct w. Qed.

(** [reserve_pages] on the reference kernel. *)
Lemma posix_reserve (ptr size : Z) (w : os_state) :
  faults w = [] →
  ∃ tr : list event,
    exec posix_kernel (reserve_pages ptr size) w
      = (tr,
         with_mappings w
           (if can_reserve ptr size (mappings w)
            then (ptr, page_align size) :: mappings w
            else mappings w),
         Returned (can_reserve ptr size (mappings w))).
Proof.
  intros Hf.
  pose proof (exec_reserve_pages posix_kernel ptr size w) as E.
  cbv zeta in E. rewrite (posix_reserve_request ptr size w Hf) in E.
  pose proof (page_align_bounds size) as Hb.
  pose proof (hint_address_range ptr) as Hh.
  pose proof (hint_address_aligned ptr) as Hha.
  pose proof (above_all_min (mappings w)) as Hmin.
  assert (Hmf : MAP_FAILED = 2 ^ 64 - 1) by done.
  assert (Hts : TASK_SIZE = 2 ^ 47 - 4096) by done.
  assert (Hmm : MMAP_MIN_ADDR = 65536) by done.
  assert (Hps : PAGE_SIZE = 4096) by done.
  rewrite E. clear E. unfold can_reserve.
  destruct (Z.leb_spec size 0) as [Hs|Hs].
  { cbn [orb fst snd]. rewrite Z.eqb_refl.
    destruct (Z.ltb_spec 0 size) as [?|_]; [lia|]. cbn [andb].
    rewrite with_mappings_id. by eexists. }
  destruct (Z.ltb_spec 0 size) as [_|?]; [|lia].
  destruct (Z.ltb_spec TASK_SIZE (page_align size)) as [Ht|Ht].
  { cbn [orb fst snd andb]. rewrite Z.eqb_refl.
    assert (page_aligned ptr && (MMAP_MIN_ADDR <=? ptr) &&
            (ptr + page_align size <=? TASK_SIZE) = false) as ->.
    { destruct (page_aligned ptr); cbn [andb]; [|done].
      destruct (Z.leb_spec MMAP_MIN_ADDR ptr); cbn [andb]; [|done].
      destruct (Z.leb_spec (ptr + page_align size) TASK_SIZE); [lia|done]. }
    cbn [andb]. rewrite with_mappings_id. by eexists. }
  cbn [orb andb].
  destruct (negb (hint_address ptr =? 0) &&
            (hint_address ptr + page_align size <=? TASK_SIZE) &&
            range_free (hint_address ptr) (page_align size) (mappings w))
    eqn:Hhint.
  - apply andb_prop in Hhint as [[Hn0 Hfit]%andb_prop Hfree].
    apply negb_true_iff, Z.eqb_neq in Hn0. apply Z.leb_le in Hfit.
    cbn [fst snd].
    destruct (Z.eqb_spec (hint_address ptr) MAP_FAILED) as [?|_]; [lia|].
    destruct (Z.eqb_spec (hint_address ptr) ptr) as [Heq|Hne].
    + destruct (hint_address_fixed ptr Heq) as [Hal Hge]; [congruence|].
      rewrite Heq in Hfit, Hfree. rewrite Hal, Hfree.
      destruct (Z.leb_spec MMAP_MIN_ADDR ptr) as [_|?]; [|lia].
      destruct (Z.leb_spec (ptr + page_align size) TASK_SIZE) as [_|?]; [|lia].
      cbn [andb]. rewrite Heq. by eexists.
    + rewrite (posix_munmap_fresh _ size (mappings w) w) by done.
      cbn [fst snd].
      assert (Hno : page_aligned ptr && (MMAP_MIN_ADDR <=? ptr) = false).
      { destruct (page_aligned ptr) eqn:Hal; [|done].
        destruct (Z.leb_spec MMAP_MIN_ADDR ptr) as [Hge|?]; [|done].
        by rewrite hint_address_id in Hne. }
      rewrite Hno. cbn [andb]. by eexists.
  - assert (Hno : page_aligned ptr && (MMAP_MIN_ADDR <=? ptr) &&
                  (ptr + page_align size <=? TASK_SIZE) &&
                  range_free ptr (page_align size) (mappings w) = false).
    { destruct (page_aligned ptr) eqn:Hal; [|done].
      destruct (Z.leb_spec MMAP_MIN_ADDR ptr) as [Hge|?]; [|done].
      rewrite (hint_address_id ptr Hal Hge) in Hhint.
      destruct (Z.eqb_spec ptr 0) as [?|_]; [lia|]. exact Hhint. }
    rewrite Hno.
    destruct (Z.leb_spec (above_all (mappings w) + page_align size) TASK_SIZE)
      as [Hfit|Hfit]; cbn [fst snd].
    + destruct (Z.eqb_spec (above_all (mappings w)) MAP_FAILED) as [?|_];
        [lia|].
      pose proof (range_free_above (above_all (mappings w)) (page_align size)
                    (mappings w) ltac:(lia)) as Hfree.
      destruct (Z.eqb_spec (above_all (mappings w)) ptr) as [Heq|Hne].
      { exfalso. rewrite <- Heq in Hno.
        unfold above_all in Hno at 1. rewrite page_align_aligned in Hno.
        fold (above_all (mappings w)) in Hno. rewrite Hfree in Hno.
        destruct (Z.leb_spec MMAP_MIN_ADDR (above_all (mappings w)));
          [|lia].
        destruct (Z.leb_spec (above_all (mappings w) + page_align size)
                    TASK_SIZE); [done | lia]. }
      rewrite (posix_munmap_fresh _ size (mappings w) w); try done;
        [|apply page_align_aligned].
      cbn [fst snd]. by eexists.
    + rewrite Z.eqb_refl, with_mappings_id. by eexists.
Qed.

(** X13. On the reference kernel [reserve_pages] is all or nothing.  It
    succeeds exactly when the size is positive, the address is
    page-aligned and not below the lowest mappable address, and the
    range, rounded up to whole pages, ends within the address space and
    overlaps no mapping; it then adds that range alone.  When it fails,
    for a null or unaligned address as well, the mappings are as before,
    a stray mapping having been released. *)
Theorem posix_reserve_all_or_nothing (ptr size : Z) (w : os_state) :
  faults w = [] →
  result_of posix_kernel (reserve_pages ptr size) w
    = Returned (can_reserve ptr size (mappings w)) ∧
  mappings (world_of posix_kernel (reserve_pages ptr size) w)
    = (if can_reserve ptr size (mappings w)
       then (ptr, page_align size) :: mappings w
       else mappings w).
Proof.
  intros Hf. destruct (posix_reserve ptr size w Hf) as (tr & E).
  unfold result_of, world_of. by rewrite E.
Qed.

(** X14. On the reference kernel, a range that was reserved cannot be
    reserved again until it is released: the second [reserve_pages]
    fails and leaves the mappings alone, [release_pages] succeeds and
    restores the mappings, and [reserve_pages] then succeeds once
    more. *)
Theorem posix_reserve_release_cycle (ptr size : Z) (w : os_state) :
  faults w = [] →
  can_reserve ptr size (mappings w) = true →
  let w1 := world_of posix_kernel (reserve_pages ptr size) w in
  let w2 := world_of posix_kernel (release_pages ptr size) w1 in
  result_of posix_kernel (reserve_pages ptr size) w = Returned true ∧
  mappings w1 = (ptr, page_align size) :: mappings w ∧
  result_of posix_kernel (reserve_pages ptr size) w1 = Returned false ∧
  mappings (world_of posix_kernel (reserve_pages ptr size) w1) = mappings w1 ∧
  result_of posix_kernel (release_pages ptr size) w1 = Returned true ∧
  mappings w2 = mappings w ∧
  result_of posix_kernel (reserve_pages ptr size) w2 = Returned true.
Proof.
  intros Hf Hcan w1 w2.
  destruct (posix_reserve ptr size w Hf) as (tr & E1).
  rewrite Hcan in E1.
  assert (Hw1 : w1 = with_mappings w ((ptr, page_align size) :: mappings w))
    by (unfold w1, world_of; by rewrite E1).
  pose proof Hcan as Hcan'. unfold can_reserve in Hcan'.
  apply andb_prop in Hcan' as [Hcan' Hfree].
  apply andb_prop in Hcan' as [Hcan' Hfit%Z.leb_le].
  apply andb_prop in Hcan' as [Hcan' Hge%Z.leb_le].
  apply andb_prop in Hcan' as [Hs%Z.ltb_lt Hal].
  pose proof (page_align_bounds size) as Hb.
  assert (Hcan1 : can_reserve ptr size (mappings w1) = false).
  { rewrite Hw1. unfold can_reserve, range_free.
    cbn [mappings with_mappings forallb].
    unfold overlaps. cbn [fst snd].
    destruct (Z.ltb_spec ptr (ptr + page_align size)) as [_|?]; [|lia].
    cbn [negb andb]. by rewrite !andb_false_r. }
  destruct (posix_reserve ptr size w1 ltac:(by rewrite Hw1)) as (tr2 & E2).
  rewrite Hcan1 in E2.
  assert (E3 : exec posix_kernel (release_pages ptr size) w1
               = ([(sys_munmap ptr size, 0)], with_mappings w (mappings w),
                  Returned true)).
  { unfold release_pages. run_prog. rewrite Hw1.
    by rewrite posix_munmap_fresh. }
  assert (Hw2 : w2 = w).
  { unfold w2, world_of. rewrite E3. apply with_mappings_id. }
  rewrite Hw2. unfold result_of, world_of. rewrite E1, E2, E3.
  cbn [fst snd]. by rewrite Hw1.
Qed.

(** ** Sample runs for the further properties *)

Lemma map_shared_memory_fixed_shared_witness :
  s_shmem sample_registry !! 0%nat = Some (Shmem (strncpy "x" 8) 3) ∧
  ∃ r' : registry,
    result_of posix_kernel
      (map_shared_memory (Entry 0) 0 65536 4096 ACC_READWRITE sample_registry)
      sample_os = Returned (true, r') ∧
    r' = sample_registry.
Proof.
  split; [reflexivity|].
  destruct (map_shared_memory_fixed_shared posix_kernel 0%nat
              (Shmem (strncpy "x" 8) 3) 0 65536 4096 ACC_READWRITE
              sample_registry sample_os eq_refl)
    as (_ & _ & _ & ok & r' & E & Hok & _ & _ & Hsame).
  exists r'. unfold result_of. rewrite E. cbn [snd].
  assert (ok = true) as -> by (apply Hok; vm_compute; congruence).
  split; [reflexivity | apply Hsame; reflexivity].
Defined.

Lemma create_handle_round_trip_witness :
  nul_free "x" ∧
  (String.length "x" < 8)%nat ∧
  sample_create.2 = Returned (Entry 0, sample_registry) ∧
  ∀ w1 : os_state,
    (trace_of posix_kernel (destroy_shared_memory (Entry 0) sample_registry) w1).*1
      = [sys_close 3; sys_shm_unlink (PStr "x")].
Proof.
  assert (Hname : nul_free "x") by (vm_compute; repeat split; discriminate).
  assert (Hlen : (String.length "x" < 8)%nat) by (vm_compute; lia).
  split; [exact Hname|]. split; [exact Hlen|]. split; [reflexivity|].
  destruct (create_handle_round_trip 8 posix_kernel "x" 4096 ACC_READWRITE
              (registry_start 8) sample_registry os_boot sample_os
              sample_create.1.1 0%nat Hname Hlen eq_refl)
    as (fd & Hopen & _ & _ & Hdestroy & _).
  assert (fd = 3) as ->.
  { vm_compute in Hopen.
    repeat (apply elem_of_cons in Hopen as [Hopen|Hopen];
            [try discriminate Hopen|]).
    - by injection Hopen.
    - by apply elem_of_nil in Hopen. }
  exact Hdestroy.
Defined.

Lemma destroy_leaves_entry_in_place_witness :
  s_shmem sample_registry !! 0%nat = Some (Shmem (strncpy "x" 8) 3) ∧
  ∃ r' : registry,
    result_of posix_kernel (destroy_shared_memory (Entry 0) sample_registry)
      sample_os = Returned (true, r') ∧
    s_shmem r' = s_shmem sample_registry.
Proof.
  split; [reflexivity|]. eexists. split; [vm_compute; reflexivity|].
  eapply (destroy_leaves_entry_in_place posix_kernel 0%nat
            (Shmem (strncpy "x" 8) 3) sample_registry _ sample_os true);
    vm_compute; reflexivity.
Defined.

Lemma create_passes_size_as_off_t_witness :
  0 ≤ 2 ^ 63 < 2 ^ 64 ∧ to_off_t (2 ^ 63) = - 2 ^ 63.
Proof.
  assert (Hsize : 0 ≤ 2 ^ 63 < 2 ^ 64) by lia.
  split; [exact Hsize|].
  destruct (create_passes_size_as_off_t 8 posix_kernel "x" (2 ^ 63)
              ACC_READWRITE (registry_start 8) os_boot Hsize)
    as (_ & Hbig & _).
  destruct Hbig as [-> _]; [lia | reflexivity].
Defined.

Lemma live_entry_is_stable_witness :
  ∃ s s' : client,
    run_ops 8 posix_kernel
      [op_create "x" 4096 ACC_READWRITE; op_create "y" 4096 ACC_READWRITE;
       op_destroy (Entry 0)]
      (client_start 8 os_boot) = Some s ∧
    step 8 posix_kernel (op_create "z" 4096 ACC_READWRITE) s = Some s' ∧
    Entry 1 ∈ live s ∧
    filename <$> s_shmem (reg s') !! 1%nat = Some (strncpy "y" 8).
Proof.
  eexists _, _. split; [vm_compute; reflexivity|].
  split; [vm_compute; reflexivity|].
  assert (Hlive : Entry 1 ∈ [Entry 1]) by (apply elem_of_cons; by left).
  split; [exact Hlive|].
  rewrite (proj1 (live_entry_is_stable 8 posix_kernel os_boot
            [op_create "x" 4096 ACC_READWRITE; op_create "y" 4096 ACC_READWRITE;
             op_destroy (Entry 0)]
            (op_create "z" 4096 ACC_READWRITE) _ _ 1%nat
            ltac:(vm_compute; reflexivity) ltac:(vm_compute; reflexivity) Hlive)).
  reflexivity.
Defined.




Lemma posix_reserve_all_or_nothing_witness :
  faults (with_mappings os_boot [(65536, 8192)]) = [] ∧
  result_of posix_kernel (reserve_pages 69632 4096)
    (with_mappings os_boot [(65536, 8192)]) = Returned false ∧
  mappings (world_of posix_kernel (reserve_pages 69632 4096)
              (with_mappings os_boot [(65536, 8192)])) = [(65536, 8192)].
Proof.
  split; [reflexivity|].
  exact (posix_reserve_all_or_nothing 69632 4096
           (with_mappings os_boot [(65536, 8192)]) eq_refl).
Defined.

Lemma posix_reserve_release_cycle_witness :
  faults os_boot = [] ∧
  can_reserve 65536 4096 (mappings os_boot) = true ∧
  result_of posix_kernel (reserve_pages 65536 4096)
    (world_of posix_kernel (reserve_pages 65536 4096) os_boot)
    = Returned false.
Proof.
  split; [reflexivity|]. split; [reflexivity|].
  exact (proj1 (proj2 (proj2
           (posix_reserve_release_cycle 65536 4096 os_boot eq_refl eq_refl)))).
Defined.

Lemma registry_calls_initialise_witness :
  sample_create.2 = Returned (Entry 0, sample_registry) ∧
  s_initialized sample_registry = true ∧
  init_shared_memory_entries sample_registry = sample_registry.
Proof.
  split; [reflexivity|].
  apply (proj1 (proj2 (proj2 (registry_calls_initialise 8 posix_kernel
           (registry_start 8) sample_registry os_boot)))
           "x" 4096 ACC_READWRITE (Entry 0)).
  reflexivity.
Defined.
